(** * anymail: extraction of verification codes from inbound mail, and their lookup

    A shallow embedding of [src/index.ts] (a mail-and-fetch worker) together
    with the parts of the JavaScript platform it calls: strings as sequences
    of UTF-16 code units, the backtracking regular-expression matcher,
    [parseInt], [decodeURIComponent], a key-value namespace with expiring
    records.  The functions of the worker keep their source names. *)

From Stdlib Require Import NArith ZArith String Ascii Lia.
From stdpp Require Import gmap list.

Set Default Proof Using "Type".

(** ** JavaScript strings *)

(** A string is its sequence of UTF-16 code units. *)
Abbreviation jsstring := (list N).

(** [lit] embeds a literal of the source (all of them are ASCII). *)
Definition lit (s : string) : jsstring := N_of_ascii <$> list_ascii_of_string s.

Definition inRange (lo hi c : N) : bool := ((lo <=? c) && (c <=? hi))%N.

Definition isDigit (c : N) : bool := inRange 48 57 c.
Definition isUpper (c : N) : bool := inRange 65 90 c.
Definition isLower (c : N) : bool := inRange 97 122 c.
Definition isLetter (c : N) : bool := isUpper c || isLower c.

(** The characters of the [\w] class, which decide where [\b] holds. *)
Definition isWordChar (c : N) : bool := isLetter c || isDigit c || (c =? 95)%N.

Definition asciiUpper (c : N) : N := if isLower c then (c - 32)%N else c.
Definition asciiLower (c : N) : N := if isUpper c then (c + 32)%N else c.

(** [String.prototype.toLowerCase], code unit by code unit.  The mapping is
    the Unicode one on Basic Latin and Latin-1; a code unit above U+00FF is
    left as it is.  The worker observes a lower-cased string in three places:
    the text of an address match (ASCII only), the test that a header starts
    with the ASCII prefix [bearer ] (no code unit above U+00FF lower-cases to
    one of its characters) and the domain list of the root route. *)
Definition lowerCodeUnit (c : N) : N :=
  if isUpper c then (c + 32)%N
  else if inRange 192 222 c && negb (c =? 215)%N then (c + 32)%N
  else c.

Definition toLowerCase (s : jsstring) : jsstring := lowerCodeUnit <$> s.

(** WhiteSpace and LineTerminator code points, as [trim] and [parseInt]
    strip them. *)
Definition isWhiteSpace (c : N) : bool :=
  inRange 9 13 c || (c =? 32)%N || (c =? 160)%N || (c =? 5760)%N
  || inRange 8192 8202 c || (c =? 8232)%N || (c =? 8233)%N || (c =? 8239)%N
  || (c =? 8287)%N || (c =? 12288)%N || (c =? 65279)%N.

Fixpoint dropWhile (p : N → bool) (s : jsstring) : jsstring :=
  match s with
  | c :: s' => if p c then dropWhile p s' else s
  | [] => []
  end.

Fixpoint takeWhile (p : N → bool) (s : jsstring) : jsstring :=
  match s with
  | c :: s' => if p c then c :: takeWhile p s' else []
  | [] => []
  end.

Definition trimStart (s : jsstring) : jsstring := dropWhile isWhiteSpace s.
Definition trimEnd (s : jsstring) : jsstring := rev (dropWhile isWhiteSpace (rev s)).
Definition trim (s : jsstring) : jsstring := trimEnd (trimStart s).

Fixpoint startsWith (s p : jsstring) {struct p} : bool :=
  match p, s with
  | [], _ => true
  | c :: p', d :: s' => (c =? d)%N && startsWith s' p'
  | _ :: _, [] => false
  end.

(** [s.slice(n)] for [0 <= n]. *)
Definition slice (n : nat) (s : jsstring) : jsstring := drop n s.

(** [s.split(sep)] for a one-character separator. *)
Fixpoint split (sep : N) (s : jsstring) : list jsstring :=
  match s with
  | [] => [[]]
  | c :: s' =>
      if (c =? sep)%N then [] :: split sep s'
      else match split sep s' with
           | w :: ws => (c :: w) :: ws
           | [] => [[c]]
           end
  end.

(** Truthiness of a value of type [string | null | undefined]. *)
Definition truthy (v : option jsstring) : bool :=
  match v with
  | Some (_ :: _) => true
  | _ => false
  end.

(** ** Regular expressions *)

Module RegExp.

Inductive ClassItem :=
| Range (lo hi : N)
| Single (c : N).

Abbreviation CharSet := (list ClassItem).

(** The fragment of the pattern language the worker's literals use.  A
    quantifier is greedy and applies to a one-character atom. *)
Inductive Node :=
| Atom (cs : CharSet)
| Quantified (cs : CharSet) (min : nat) (max : option nat)
| WordBoundary
| InputStart
| Group (i : nat) (r : Node)
| Seq (a b : Node).

Record Pattern := { source : Node; ignoreCase : bool; nGroups : nat }.

Definition itemHas (it : ClassItem) (c : N) : bool :=
  match it with
  | Range lo hi => inRange lo hi c
  | Single d => (c =? d)%N
  end.

(** Every character of the worker's classes is ASCII, and canonicalization
    under the [i] flag (without [u]) never identifies a non-ASCII code unit
    with an ASCII one: a class holds [c] case-insensitively when it holds
    [c] or the other ASCII case of [c]. *)
Definition charSetMatches (ic : bool) (cs : CharSet) (c : N) : bool :=
  existsb (λ it, itemHas it c
                 || (ic && (itemHas it (asciiUpper c) || itemHas it (asciiLower c)))) cs.

Record State := { seen : jsstring; rest : jsstring; captures : list (option jsstring) }.

Abbreviation Continuation := (State → option State).

(** The input before the position is kept most recent first. *)
Definition isWordBoundary (st : State) : bool :=
  let a := match seen st with c :: _ => isWordChar c | [] => false end in
  let b := match rest st with c :: _ => isWordChar c | [] => false end in
  xorb a b.

(** RepeatMatcher for a one-character atom: greedy, the atom first, the
    continuation at the current position when that fails and [min] is
    reached. *)
Fixpoint repeatMatcher (ok : N → bool) (min : nat) (max : option nat)
    (caps : list (option jsstring)) (sn rs : jsstring) (k : Continuation)
    {struct rs} : option State :=
  let here := match min with
              | O => k {| seen := sn; rest := rs; captures := caps |}
              | S _ => None
              end in
  match max with
  | Some O => k {| seen := sn; rest := rs; captures := caps |}
  | _ =>
      match rs with
      | c :: rs' =>
          if ok c then
            match repeatMatcher ok (pred min) (pred <$> max) caps (c :: sn) rs' k with
            | Some r => Some r
            | None => here
            end
          else here
      | [] => here
      end
  end.

Definition setCapture (i : nat) (from to : State) : State :=
  {| seen := seen to; rest := rest to;
     captures := <[i := Some (rev (take (length (seen to) - length (seen from)) (seen to)))]>
                   (captures to) |}.

Fixpoint matcher (ic : bool) (r : Node) (st : State) (k : Continuation) : option State :=
  match r with
  | Atom cs =>
      match rest st with
      | c :: rs' =>
          if charSetMatches ic cs c
          then k {| seen := c :: seen st; rest := rs'; captures := captures st |}
          else None
      | [] => None
      end
  | Quantified cs min max =>
      repeatMatcher (charSetMatches ic cs) min max (captures st) (seen st) (rest st) k
  | WordBoundary => if isWordBoundary st then k st else None
  | InputStart => match seen st with [] => k st | _ :: _ => None end
  | Group i r' => matcher ic r' st (λ st', k (setCapture i st st'))
  | Seq a b => matcher ic a st (λ st', matcher ic b st' k)
  end.

(** The result of a successful match: [index], [match[0]] and the
    capture groups [match[1]], ... *)
Record Match := { index : nat; whole : jsstring; groups : list (option jsstring) }.

Definition matchAt (re : Pattern) (sn rs : jsstring) : option Match :=
  match matcher (ignoreCase re) (source re)
          {| seen := sn; rest := rs; captures := replicate (nGroups re) None |} Some with
  | Some st =>
      Some {| index := length sn;
              whole := take (length (seen st) - length sn) rs;
              groups := captures st |}
  | None => None
  end.

(** The scan of a pattern that is neither global nor sticky: the first
    position, from the left, where the matcher succeeds. *)
Fixpoint scan (re : Pattern) (sn rs : jsstring) : option Match :=
  match matchAt re sn rs with
  | Some m => Some m
  | None =>
      match rs with
      | c :: rs' => scan re (c :: sn) rs'
      | [] => None
      end
  end.

(** [re.exec(s)] and [s.match(re)]. *)
Definition exec (re : Pattern) (s : jsstring) : option Match := scan re [] s.

(** [s.replace(re, by)] with a replacement text free of [$]. *)
Definition replace (re : Pattern) (s by_ : jsstring) : jsstring :=
  match exec re s with
  | Some m => take (index m) s ++ by_ ++ drop (index m + length (whole m)) s
  | None => s
  end.

End RegExp.

Import RegExp.

(** ** Results of computations that may throw *)

Inductive Error := URIError | TypeError.

Inductive Outcome (A : Type) :=
| Returns (a : A)
| Throws (e : Error).
Arguments Returns {A} a.
Arguments Throws {A} e.

#[export] Instance Outcome_ret : MRet Outcome := λ A a, Returns a.
#[export] Instance Outcome_bind : MBind Outcome :=
  λ A B f c, match c with Returns a => f a | Throws e => Throws e end.

(** [try { body } catch { handler }] *)
Definition tryCatch {A} (body : Outcome A) (handler : Error → Outcome A) : Outcome A :=
  match body with
  | Returns a => Returns a
  | Throws e => handler e
  end.

(** ** Numbers and [parseInt] *)

(** The Number values an integer computation can produce. *)
Inductive Number := NaN | Finite (z : Z) | PosInfinity | NegInfinity.

(** The Number nearest to an integer (ties to even); exact below 2^53. *)
Definition toNumber (z : Z) : Number :=
  let a := Z.abs z in
  if (a <? 2 ^ 53)%Z then Finite z
  else
    let e := (Z.log2 a - 52)%Z in
    let q := (a / 2 ^ e)%Z in
    let r := (a mod 2 ^ e)%Z in
    let up := (2 ^ (e - 1) <? r)%Z || ((r =? 2 ^ (e - 1))%Z && Z.odd q) in
    let m := ((if up then q + 1 else q) * 2 ^ e)%Z in
    if (2 ^ 1024 <=? m)%Z then (if (z <? 0)%Z then NegInfinity else PosInfinity)
    else Finite (Z.sgn z * m)%Z.

Definition digitValue (c : N) : Z := Z.of_N c - 48.

Definition decimalValue (ds : jsstring) : Z :=
  foldl (λ acc c, acc * 10 + digitValue c)%Z 0%Z ds.

(** [Number.parseInt(s, 10)]: leading white space is skipped, one sign is
    read, then the longest run of decimal digits; whatever follows the
    digits is ignored.  The digits are converted exactly and rounded once
    (the standard lets an implementation drop digits after the twentieth). *)
Definition parseInt10 (s : jsstring) : Number :=
  let inputString := trimStart s in
  let sign := match inputString with
              | c :: _ => if (c =? 45)%N then (-1)%Z else 1%Z
              | [] => 1%Z
              end in
  let unsigned := match inputString with
                  | c :: s' => if (c =? 43)%N || (c =? 45)%N then s' else inputString
                  | [] => inputString
                  end in
  let digits := takeWhile isDigit unsigned in
  match digits with
  | [] => NaN
  | _ :: _ => toNumber (sign * decimalValue digits)
  end.

(** ** [decodeURIComponent] *)

Definition hexDigit (c : N) : option N :=
  if isDigit c then Some (c - 48)%N
  else if inRange 65 70 c then Some (c - 55)%N
  else if inRange 97 102 c then Some (c - 87)%N
  else None.

Definition parseHexOctet (h l : N) : option N :=
  a ← hexDigit h; b ← hexDigit l; Some (16 * a + b)%N.

Definition leadingOnes (B : N) : nat :=
  if (B <? 128)%N then 0 else if (B <? 192)%N then 1 else if (B <? 224)%N then 2
  else if (B <? 240)%N then 3 else if (B <? 248)%N then 4 else 5.

(** The [j] escapes [%XX] that continue a multi-byte sequence. *)
Fixpoint continuationOctets (j : nat) (s : jsstring) : option (list N * jsstring) :=
  match j with
  | O => Some ([], s)
  | S j' =>
      match s with
      | p :: h :: l :: s' =>
          if (p =? 37)%N then
            B ← parseHexOctet h l;
            r ← continuationOctets j' s';
            Some (B :: r.1, r.2)
          else None
      | _ => None
      end
  end.

Definition isContinuation (b : N) : bool := inRange 128 191 b.

(** The code point of a well-formed UTF-8 sequence of two to four octets. *)
Definition utf8CodePoint (octets : list N) : option N :=
  match octets with
  | [b0; b1] =>
      let v := N.lor (N.shiftl (N.land b0 31) 6) (N.land b1 63) in
      if isContinuation b1 && (128 <=? v)%N then Some v else None
  | [b0; b1; b2] =>
      let v := N.lor (N.shiftl (N.land b0 15) 12)
                 (N.lor (N.shiftl (N.land b1 63) 6) (N.land b2 63)) in
      if isContinuation b1 && isContinuation b2 && (2048 <=? v)%N
         && negb (inRange 55296 57343 v)
      then Some v else None
  | [b0; b1; b2; b3] =>
      let v := N.lor (N.shiftl (N.land b0 7) 18)
                 (N.lor (N.shiftl (N.land b1 63) 12)
                    (N.lor (N.shiftl (N.land b2 63) 6) (N.land b3 63))) in
      if isContinuation b1 && isContinuation b2 && isContinuation b3
         && inRange 65536 1114111 v
      then Some v else None
  | _ => None
  end.

Definition utf16Encode (v : N) : jsstring :=
  if (v <=? 65535)%N then [v]
  else [(55296 + N.shiftr (v - 65536) 10)%N; (56320 + N.land (v - 65536) 1023)%N].

Fixpoint decode (fuel : nat) (s : jsstring) : Outcome jsstring :=
  match fuel with
  | O => Returns []
  | S fuel' =>
      match s with
      | [] => Returns []
      | c :: s' =>
          if (c =? 37)%N then
            match s' with
            | h :: l :: s'' =>
                match parseHexOctet h l with
                | None => Throws URIError
                | Some B =>
                    match leadingOnes B with
                    | O => R ← decode fuel' s''; Returns (B :: R)
                    | S n' =>
                        if bool_decide (n' = 0%nat) || bool_decide (4 ≤ n')%nat
                        then Throws URIError
                        else
                          match continuationOctets n' s'' with
                          | None => Throws URIError
                          | Some (octets, s3) =>
                              match utf8CodePoint (B :: octets) with
                              | None => Throws URIError
                              | Some V => R ← decode fuel' s3; Returns (utf16Encode V ++ R)
                              end
                          end
                    end
                end
            | _ => Throws URIError
            end
          else R ← decode fuel' s'; Returns (c :: R)
      end
  end.

(** Every step consumes at least one code unit, so the length of the input
    is fuel enough. *)
Definition decodeURIComponent (s : jsstring) : Outcome jsstring := decode (length s) s.

(** ** The key-value namespace *)

Module KV.

Record Entry := { value : jsstring; expiration : Z }.

(** A namespace, with the time (in seconds) at which it is observed. *)
Record Namespace := { clock : Z; entries : gmap jsstring Entry }.

Definition get (ns : Namespace) (key : jsstring) : option jsstring :=
  match entries ns !! key with
  | Some e => if (clock ns <? expiration e)%Z then Some (value e) else None
  | None => None
  end.

Definition put (ns : Namespace) (key val : jsstring) (expirationTtl : Z) : Namespace :=
  {| clock := clock ns;
     entries := <[key := {| value := val; expiration := clock ns + expirationTtl |}]>
                  (entries ns) |}.

Definition elapse (dt : Z) (ns : Namespace) : Namespace :=
  {| clock := clock ns + dt; entries := entries ns |}.

(** A write as the inbound handler requests it. *)
Record PutRequest := { key : jsstring; val : jsstring; expirationTtl : Z }.

Definition perform (ns : Namespace) (tasks : list PutRequest) : Namespace :=
  foldl (λ ns t, put ns (key t) (val t) (expirationTtl t)) ns tasks.

End KV.

(** ** Messages, requests, configuration *)

(** Header names are kept lower-cased, as a [Headers] object does. *)
Abbreviation Headers := (gmap jsstring jsstring).

Definition headersGet (h : Headers) (name : jsstring) : option jsstring :=
  h !! toLowerCase name.

(** A body stream, by what reading it to its end as text gives. *)
Inductive ReadableStream :=
| Delivers (text : jsstring)
| Breaks (e : Error).

(** [new Response(stream).text()] *)
Definition responseText (stream : ReadableStream) : Outcome jsstring :=
  match stream with
  | Delivers text => Returns text
  | Breaks e => Throws e
  end.

(** The [to] field: absent, one string, or an array. *)
Inductive ToField :=
| ToAbsent
| ToOne (s : jsstring)
| ToMany (l : list (option jsstring)).

Record Message := { to : ToField; headers : option Headers; raw : option ReadableStream }.

(** [url] is the request's URL as [new URL] parses it. *)
Record URL := { pathname : jsstring }.

Record Request := { method : jsstring; url : URL; requestHeaders : Headers }.

Record Env := {
  ACCESS_KEY : option jsstring;
  CODE_TTL_SECONDS : option jsstring;
  DOMAINS : option jsstring;
  ANYMAIL_CODES : KV.Namespace
}.

(** The data a response carries, before [JSON.stringify]. *)
Inductive Payload :=
| ErrorPayload (error : jsstring)
| DomainsPayload (domains : list jsstring)
| CodePayload (code : jsstring).

Record Response := { status : Z; contentType : jsstring; body : Payload }.

Definition json (data : Payload) (status : Z) : Response :=
  {| status := status;
     contentType := lit "application/json; charset=utf-8";
     body := data |}.

(** ** The worker *)

Definition DEFAULT_TTL_SECONDS : Z := 600.

(** [/\b(\d{5,6})\b/] *)
Definition CODE_REGEX : Pattern :=
  {| source := Seq WordBoundary
                 (Seq (Group 0 (Quantified [Range 48 57] 5 (Some 6))) WordBoundary);
     ignoreCase := false; nGroups := 1 |}.

Definition localClass : CharSet :=
  [Range 65 90; Range 48 57; Single 46; Single 95; Single 37; Single 43; Single 45].
Definition domainClass : CharSet := [Range 65 90; Range 48 57; Single 46; Single 45].

(** [/[A-Z0-9._%+-]+@[A-Z0-9.-]+\.[A-Z]{2,}/i] *)
Definition ADDRESS_REGEX : Pattern :=
  {| source := Seq (Quantified localClass 1 None)
                 (Seq (Atom [Single 64])
                    (Seq (Quantified domainClass 1 None)
                       (Seq (Atom [Single 46]) (Quantified [Range 65 90] 2 None))));
     ignoreCase := true; nGroups := 0 |}.

Definition extractEmailAddress (value : option jsstring) : option jsstring :=
  match value with
  | Some ((_ :: _) as v) =>
      match exec ADDRESS_REGEX v with
      | Some m => Some (toLowerCase (whole m))
      | None => None
      end
  | _ => None
  end.

Definition includes (l : list jsstring) (x : jsstring) : bool := bool_decide (x ∈ l).

Definition getRecipients (message : Message) : list jsstring :=
  let list := match to message with
              | ToMany l => l
              | ToOne s => [Some s]
              | ToAbsent => [None]
              end in
  foldl (λ recipients entry,
           match extractEmailAddress (Some (default [] entry)) with
           | Some email =>
               if truthy (Some email) then
                 if negb (includes recipients email) then recipients ++ [email]
                 else recipients
               else recipients
           | None => recipients
           end) [] list.

Definition extractCode (text : jsstring) : option jsstring :=
  match exec CODE_REGEX text with
  | Some m => mjoin (groups m !! 0%nat)
  | None => None
  end.

Definition buildKey (email : jsstring) : jsstring := lit "code:" ++ email.

Definition parseDomains (value : option jsstring) : list jsstring :=
  match value with
  | Some ((_ :: _) as v) =>
      filter (λ domain, (0 < length domain)%nat)
        ((λ domain, toLowerCase (trim domain)) <$> split 44 v)
  | _ => []
  end.

Definition readRawText (message : Message) : Outcome jsstring :=
  match raw message with
  | None => Returns []
  | Some stream => tryCatch (responseText stream) (λ _, Returns [])
  end.

Definition getAccessKey (request : Request) : jsstring :=
  let auth := default [] (headersGet (requestHeaders request) (lit "authorization")) in
  if startsWith (toLowerCase auth) (lit "bearer ") then trim (slice 7 auth) else [].

Definition normalizeTtlSeconds (value : option jsstring) : Z :=
  let parsed := parseInt10 (default [] value) in
  match parsed with
  | Finite z => if (0 <? z)%Z then z else DEFAULT_TTL_SECONDS
  | _ => DEFAULT_TTL_SECONDS
  end.

(** The inbound handler; its result is the list of writes handed to
    [ctx.waitUntil]. *)
Definition email (message : Message) (env : Env) : Outcome (list KV.PutRequest) :=
  let recipients := getRecipients message in
  if bool_decide (length recipients = 0%nat) then Returns []
  else
    let subject := default [] (h ← headers message; headersGet h (lit "subject")) in
    rawText ← readRawText message;
    let code := extractCode (subject ++ [10%N] ++ rawText) in
    if negb (truthy code) then Returns []
    else
      let code := default [] code in
      let ttlSeconds := normalizeTtlSeconds (CODE_TTL_SECONDS env) in
      let tasks := (λ recipient,
                      {| KV.key := buildKey recipient; KV.val := code;
                         KV.expirationTtl := ttlSeconds |}) <$> recipients in
      Returns tasks.

(** [/^\/+/] *)
Definition LEADING_SLASHES : Pattern :=
  {| source := Seq InputStart (Quantified [Single 47] 1 None);
     ignoreCase := false; nGroups := 0 |}.

Definition fetch (request : Request) (env : Env) : Outcome Response :=
  if negb (bool_decide (method request = lit "GET"))
  then Returns (json (ErrorPayload (lit "method not allowed")) 405)
  else
    let accessKey := getAccessKey request in
    if negb (truthy (ACCESS_KEY env)) || negb (bool_decide (Some accessKey = ACCESS_KEY env))
    then Returns (json (ErrorPayload (lit "unauthorized")) 401)
    else
      let path := replace LEADING_SLASHES (pathname (url request)) [] in
      match path with
      | [] => Returns (json (DomainsPayload (parseDomains (DOMAINS env))) 200)
      | _ :: _ =>
          decoded ← decodeURIComponent path;
          let email := extractEmailAddress (Some decoded) in
          if negb (truthy email)
          then Returns (json (ErrorPayload (lit "invalid email")) 400)
          else
            let email := default [] email in
            let code := KV.get (ANYMAIL_CODES env) (buildKey email) in
            if negb (truthy code)
            then Returns (json (CodePayload []) 404)
            else Returns (json (CodePayload (default [] code)) 200)
      end.

(** * What the specification says *)

(** ** Addresses *)

Definition allOf (ok : N → bool) (s : jsstring) : Prop := Forall (λ c, ok c = true) s.

(** [[A-Z0-9._%+-]] and [[A-Z0-9.-]], case-insensitively. *)
Definition isLocalChar (c : N) : bool :=
  isLetter c || isDigit c || bool_decide (c ∈ [46; 95; 37; 43; 45]%N).
Definition isDomainChar (c : N) : bool :=
  isLetter c || isDigit c || bool_decide (c ∈ [46; 45]%N).

(** A string of the address shape: a local part, [@], a domain, a dot and
    at least two letters. *)
Definition IsAddress (m : jsstring) : Prop :=
  ∃ L D T, m = L ++ [64%N] ++ D ++ [46%N] ++ T
    ∧ L ≠ [] ∧ allOf isLocalChar L
    ∧ D ≠ [] ∧ allOf isDomainChar D
    ∧ (2 ≤ length T)%nat ∧ allOf isLetter T.

(** ** Codes *)

(** A word boundary lies between [before] and [after] when exactly one of
    the two characters around it is a word character. *)
Definition wordBoundary (before after : jsstring) : bool :=
  xorb (from_option isWordChar false (last before))
       (from_option isWordChar false (head after)).

(** In [l ++ d ++ r], [d] is a token of five or six digits with a word
    boundary on each side. *)
Definition IsCodeToken (l d r : jsstring) : Prop :=
  allOf isDigit d ∧ (length d = 5 ∨ length d = 6)%nat
  ∧ wordBoundary l (d ++ r) = true ∧ wordBoundary (l ++ d) r = true.

(** ** Recipients *)

(** Every element once, at the place of its first occurrence. *)
Fixpoint keepFirst (l : list jsstring) : list jsstring :=
  match l with
  | [] => []
  | x :: l' => x :: filter (λ y, y ≠ x) (keepFirst l')
  end.

(** The entries of the [to] field, a single value counting as a list of
    one. *)
Definition entries (message : Message) : list (option jsstring) :=
  match to message with
  | ToAbsent => [None]
  | ToOne s => [Some s]
  | ToMany l => l
  end.

(** ** The TTL setting *)

Definition signOf (sgn : jsstring) : Z := if bool_decide (sgn = [45%N]) then (-1)%Z else 1%Z.

(** [s] starts, after white space and at most one sign, with the decimal
    digits of [n], and no digit follows them. *)
Definition IntegerPrefix (s : jsstring) (n : Z) : Prop :=
  ∃ ws sgn ds tail,
    s = ws ++ sgn ++ ds ++ tail ∧ allOf isWhiteSpace ws
    ∧ (sgn = [] ∨ sgn = [43%N] ∨ sgn = [45%N])
    ∧ ds ≠ [] ∧ allOf isDigit ds
    ∧ from_option isDigit false (head tail) = false
    ∧ n = (signOf sgn * decimalValue ds)%Z.

(** [s] is the decimal representation of the positive integer [n]. *)
Definition IsPositiveInteger (s : jsstring) (n : Z) : Prop :=
  s ≠ [] ∧ allOf isDigit s ∧ n = decimalValue s ∧ (0 < n)%Z.

(** ** Authorization and routing *)

Definition asciiCaseEq (a b : jsstring) : bool :=
  bool_decide (asciiLower <$> a = asciiLower <$> b).

(** The bearer credential of an Authorization header: the scheme prefix is
    matched without regard to case, the credential is the remainder,
    trimmed. *)
Definition bearerCredential (header : option jsstring) : option jsstring :=
  match header with
  | Some h =>
      if asciiCaseEq (take 7 h) (lit "Bearer ") then Some (trim (drop 7 h)) else None
  | None => None
  end.

(** The request carries a bearer credential equal to the configured key,
    which is present and not empty. *)
Definition authorized (request : Request) (env : Env) : bool :=
  match ACCESS_KEY env with
  | Some (c :: key) =>
      bool_decide (bearerCredential (headersGet (requestHeaders request) (lit "authorization"))
                   = Some (c :: key))
  | _ => false
  end.

Definition isSlash (c : N) : bool := (c =? 47)%N.

(** The request path without its leading slashes. *)
Definition routingToken (request : Request) : jsstring :=
  dropWhile isSlash (pathname (url request)).

Definition unauthorizedResponse : Response := json (ErrorPayload (lit "unauthorized")) 401.

(** The answer to a lookup, by what the store holds. *)
Definition lookupResponse (code : option jsstring) : Response :=
  match code with
  | Some (c :: code') => json (CodePayload (c :: code')) 200
  | _ => json (CodePayload []) 404
  end.

(** ** The inbound message *)

Definition subjectOf (message : Message) : jsstring :=
  default [] (h ← headers message; headersGet h (lit "subject")).

Definition bodyText (message : Message) : jsstring :=
  match raw message with
  | Some (Delivers text) => text
  | _ => []
  end.

Definition writeFor (code : jsstring) (ttl : Z) (recipient : jsstring) : KV.PutRequest :=
  {| KV.key := buildKey recipient; KV.val := code; KV.expirationTtl := ttl |}.

Definition withStore (env : Env) (ns : KV.Namespace) : Env :=
  {| ACCESS_KEY := ACCESS_KEY env; CODE_TTL_SECONDS := CODE_TTL_SECONDS env;
     DOMAINS := DOMAINS env; ANYMAIL_CODES := ns |}.

Definition removeRecord (ns : KV.Namespace) (key : jsstring) : KV.Namespace :=
  {| KV.clock := KV.clock ns; KV.entries := delete key (KV.entries ns) |}.

(** ** The end-to-end scenario of the specification *)

Definition scenarioEnv : Env :=
  {| ACCESS_KEY := Some (lit "s3cret"); CODE_TTL_SECONDS := Some (lit "120");
     DOMAINS := Some (lit "Test.com, example.ORG ,,");
     ANYMAIL_CODES := {| KV.clock := 1000; KV.entries := ∅ |} |}.

Definition scenarioMessage : Message :=
  {| to := ToOne (lit "user@test.com");
     headers := Some {[ lit "subject" := lit "Code" ]};
     raw := Some (Delivers (lit "Use 73920 to verify")) |}.

Definition messageTo (t : ToField) : Message := {| to := t; headers := None; raw := None |}.

Definition getRequest (path : string) (auth : option string) : Request :=
  {| method := lit "GET"; url := {| pathname := lit path |};
     requestHeaders := match auth with
                       | Some a => {[ lit "authorization" := lit a ]}
                       | None => ∅
                       end |}.

(** The scenario's store with an empty value on file. *)
Definition emptyCodeEnv : Env :=
  withStore scenarioEnv
    (KV.put (ANYMAIL_CODES scenarioEnv) (lit "code:user@test.com") [] 120).

(** ** Further notions *)


(** Neither the first nor the last code unit is white space. *)
Definition isTrimmed (s : jsstring) : Prop :=
  from_option isWhiteSpace false (head s) = false
  ∧ from_option isWhiteSpace false (last s) = false.



Definition isAscii (c : N) : bool := (c <? 128)%N.

Definition countOf (x : N) (s : jsstring) : nat := length (filter (λ c, c = x) s).


Definition hexChar (n : N) : N := if (n <? 10)%N then (48 + n)%N else (55 + n)%N.

(** Every code unit of an ASCII string written as an escape [%XX]. *)
Definition percentEncodeAll (s : jsstring) : jsstring :=
  s ≫= λ c, [37%N; hexChar (c / 16); hexChar (c mod 16)].

Definition jsonContentType : jsstring := lit "application/json; charset=utf-8".

(** * Vocabulary of the proofs *)

(** [n] repetitions respect the upper bound of a quantifier. *)
Definition within (max : option nat) (n : nat) : Prop :=
  ∀ M, max = Some M → (n ≤ M)%nat.

Definition mkState sn rs caps : State := {| seen := sn; rest := rs; captures := caps |}.

(** What RepeatMatcher does when it takes no further character. *)
Definition stopHere (min : nat) k (st : State) : option State :=
  match min with O => k st | S _ => None end.

(** The address pattern, continuation by continuation. *)
Definition tldK : Continuation := λ st,
  match rest st with
  | d :: rs2 =>
      if (d =? 46)%N
      then repeatMatcher isLetter 2 None (captures st) (d :: seen st) rs2 Some
      else None
  | [] => None
  end.

Definition domainK : Continuation := λ st,
  match rest st with
  | c :: rs1 =>
      if (c =? 64)%N
      then repeatMatcher isDomainChar 1 None (captures st) (c :: seen st) rs1 tldK
      else None
  | [] => None
  end.

(** [rs] starts with an address, cut into its three parts. *)
Definition AddressSplit rs L D T post : Prop :=
  rs = L ++ [64%N] ++ D ++ [46%N] ++ T ++ post
  ∧ L ≠ [] ∧ allOf isLocalChar L
  ∧ D ≠ [] ∧ allOf isDomainChar D
  ∧ (2 ≤ length T)%nat ∧ allOf isLetter T.

(** The body of the loop of [getRecipients]. *)
Definition recipientStep (recipients : list jsstring) (entry : option jsstring) :=
  match extractEmailAddress (Some (default [] entry)) with
  | Some email =>
      if truthy (Some email) then
        if negb (includes recipients email) then recipients ++ [email]
        else recipients
      else recipients
  | None => recipients
  end.

(** * Properties *)

(** ** The greedy quantifier *)

Section Matcher.

Implicit Types (sn rs pre post : jsstring) (k : Continuation).

Lemma within_pred max n : within max (S n) → within (pred <$> max) n.
Proof.
  intros H M HM. destruct max as [m|]; simplify_eq/=.
  specialize (H m eq_refl). lia.
Qed.

Lemma within_0 max : within max 0.
Proof. intros M _. lia. Qed.

Lemma within_S max n : max ≠ Some 0%nat → within (pred <$> max) n → within max (S n).
Proof.
  intros Hne H M ->. specialize (H (pred M) eq_refl).
  destruct M; [done | simpl in H; lia].
Qed.

Lemma repeatMatcher_nil ok min max caps sn k :
  within max min →
  repeatMatcher ok min max caps sn [] k = stopHere min k (mkState sn [] caps).
Proof.
  intros Hw. destruct max as [[|M]|]; try done.
  specialize (Hw 0%nat eq_refl). by destruct min; [|lia].
Qed.

Lemma repeatMatcher_exhausted ok min caps sn rs k :
  within (Some 0%nat) min →
  repeatMatcher ok min (Some 0%nat) caps sn rs k = stopHere min k (mkState sn rs caps).
Proof.
  intros Hw. specialize (Hw 0%nat eq_refl). destruct min; [|lia]. by destruct rs.
Qed.

Lemma repeatMatcher_cons ok min max caps sn c rs k :
  max ≠ Some 0%nat →
  repeatMatcher ok min max caps sn (c :: rs) k
  = if ok c then
      match repeatMatcher ok (pred min) (pred <$> max) caps (c :: sn) rs k with
      | Some r => Some r
      | None => stopHere min k (mkState sn (c :: rs) caps)
      end
    else stopHere min k (mkState sn (c :: rs) caps).
Proof. intros Hne. by destruct max as [[|M]|]. Qed.

(** A failed repetition: the continuation fails after every admissible
    prefix. *)
Lemma repeatMatcher_None ok min max caps sn rs k :
  within max min →
  repeatMatcher ok min max caps sn rs k = None →
  ∀ pre post, rs = pre ++ post → Forall (λ c, ok c = true) pre →
    (min ≤ length pre)%nat → within max (length pre) →
    k (mkState (rev pre ++ sn) post caps) = None.
Proof.
  revert min max sn. induction rs as [|c rs IH]; intros min max sn Hmm H pre post Heq Hall Hmin Hw.
  - rewrite repeatMatcher_nil in H by done.
    symmetry in Heq. apply app_eq_nil in Heq as [-> ->].
    simpl in Hmin. by assert (min = 0%nat) as -> by lia.
  - destruct (decide (max = Some 0%nat)) as [->|Hne].
    + rewrite repeatMatcher_exhausted in H by done.
      specialize (Hw 0%nat eq_refl). destruct pre; [|simpl in Hw; lia].
      simpl in Heq. subst post. simpl in Hmin. by assert (min = 0%nat) as -> by lia.
    + rewrite repeatMatcher_cons in H by done.
      destruct pre as [|c' pre].
      * simpl in Heq. subst post. simpl in Hmin. assert (min = 0%nat) as -> by lia.
        simpl in H. destruct (ok c); [|done]. by destruct (repeatMatcher _ _ _ _ _ _ _).
      * simpl in Heq. simplify_eq. inversion Hall; subst.
        rewrite H2 in H.
        destruct (repeatMatcher ok (pred min) (pred <$> max) caps (c' :: sn) (pre ++ post) k)
          eqn:Erec; [done|].
        simpl. rewrite <- app_assoc.
        apply (IH (pred min) (pred <$> max) (c' :: sn)); auto.
        -- destruct min; [apply within_0|]. apply within_pred. done.
        -- simpl in Hmin. lia.
        -- by apply within_pred.
Qed.

Lemma stopHere_Some min k st r :
  stopHere min k st = Some r → min = 0%nat ∧ k st = Some r.
Proof. by destruct min. Qed.

(** A successful repetition took some prefix [pre] of the input, within
    the bounds, and the continuation failed after every longer admissible
    prefix. *)
Lemma repeatMatcher_Some ok min max caps sn rs k r :
  within max min →
  repeatMatcher ok min max caps sn rs k = Some r →
  ∃ pre post,
    rs = pre ++ post ∧ Forall (λ c, ok c = true) pre
    ∧ (min ≤ length pre)%nat ∧ within max (length pre)
    ∧ k (mkState (rev pre ++ sn) post caps) = Some r
    ∧ ∀ pre' post', rs = pre' ++ post' → Forall (λ c, ok c = true) pre' →
        (length pre < length pre')%nat → within max (length pre') →
        k (mkState (rev pre' ++ sn) post' caps) = None.
Proof.
  revert min max sn. induction rs as [|c rs IH]; intros min max sn Hmm H.
  - rewrite repeatMatcher_nil in H by done. apply stopHere_Some in H as [-> Hk].
    exists [], []. repeat split; auto using within_0.
    intros pre' post' Heq _ Hlen _. destruct pre'; [simpl in Hlen; lia | done].
  - assert (Hstop : stopHere min k (mkState sn (c :: rs) caps) = Some r →
              (∀ pre' post', c :: rs = pre' ++ post' → Forall (λ c, ok c = true) pre' →
                 (0 < length pre')%nat → within max (length pre') →
                 k (mkState (rev pre' ++ sn) post' caps) = None) →
              ∃ pre post,
                c :: rs = pre ++ post ∧ Forall (λ c, ok c = true) pre
                ∧ (min ≤ length pre)%nat ∧ within max (length pre)
                ∧ k (mkState (rev pre ++ sn) post caps) = Some r
                ∧ ∀ pre' post', c :: rs = pre' ++ post' →
                    Forall (λ c, ok c = true) pre' →
                    (length pre < length pre')%nat → within max (length pre') →
                    k (mkState (rev pre' ++ sn) post' caps) = None).
    { intros [-> Hk]%stopHere_Some Hlonger.
      exists [], (c :: rs). repeat split; auto using within_0. }
    destruct (decide (max = Some 0%nat)) as [->|Hne].
    + rewrite repeatMatcher_exhausted in H by done. apply Hstop; [done|].
      intros pre' post' _ _ Hlen Hw. specialize (Hw 0%nat eq_refl). lia.
    + rewrite repeatMatcher_cons in H by done.
      assert (Hmm' : within (pred <$> max) (pred min)).
      { destruct min; [apply within_0|]. by apply within_pred. }
      destruct (ok c) eqn:Eok.
      * destruct (repeatMatcher ok (pred min) (pred <$> max) caps (c :: sn) rs k)
          as [r'|] eqn:Erec.
        -- simplify_eq.
           apply IH in Erec as (pre & post & -> & Hall & Hmin & Hw & Hk & Hmax); [|done].
           exists (c :: pre), post. repeat split; auto.
           ++ simpl. lia.
           ++ by apply within_S.
           ++ simpl. rewrite <- app_assoc. exact Hk.
           ++ intros pre' post' Heq Hall' Hlen Hw'.
              destruct pre' as [|c' pre']; [simpl in Hlen; lia|].
              simpl in Heq. simplify_eq. simpl. rewrite <- app_assoc.
              apply Hmax; auto.
              ** by inversion Hall'.
              ** simpl in Hlen. lia.
              ** by apply within_pred.
        -- apply Hstop; [done|].
           intros pre' post' Heq Hall' Hlen Hw'.
           destruct pre' as [|c' pre']; [simpl in Hlen; lia|].
           simpl in Heq. simplify_eq. simpl. rewrite <- app_assoc.
           apply (repeatMatcher_None ok (pred min) (pred <$> max) caps (c' :: sn)
                    (pre' ++ post') k); auto.
           ++ by inversion Hall'.
           ++ apply stopHere_Some in H as [-> _]. simpl. lia.
           ++ by apply within_pred.
      * apply Hstop; [done|].
        intros pre' post' Heq Hall' Hlen _.
        destruct pre' as [|c' pre']; [simpl in Hlen; lia|].
        simpl in Heq. simplify_eq. inversion Hall'; congruence.
Qed.

End Matcher.

(** ** The scan for the first match *)

Section Scan.
Implicit Types (sn rs : jsstring).

Lemma scan_None re sn rs :
  scan re sn rs = None →
  ∀ skipped rs', rs = skipped ++ rs' → matchAt re (rev skipped ++ sn) rs' = None.
Proof.
  revert sn. induction rs as [|c rs IH]; intros sn H skipped rs' Heq.
  - symmetry in Heq. apply app_eq_nil in Heq as [-> ->]. simpl in *.
    by destruct (matchAt re sn []).
  - simpl in H. destruct (matchAt re sn (c :: rs)) eqn:E; [done|].
    destruct skipped as [|c' skipped]; simpl in Heq; simplify_eq; [done|].
    simpl. rewrite <- app_assoc. by apply IH.
Qed.

Lemma scan_Some re sn rs m :
  scan re sn rs = Some m →
  ∃ skipped rs', rs = skipped ++ rs'
    ∧ matchAt re (rev skipped ++ sn) rs' = Some m
    ∧ ∀ skipped' rs'', rs = skipped' ++ rs'' →
        (length skipped' < length skipped)%nat →
        matchAt re (rev skipped' ++ sn) rs'' = None.
Proof.
  revert sn. induction rs as [|c rs IH]; intros sn H.
  - simpl in H. destruct (matchAt re sn []) eqn:E; [|done]. simplify_eq.
    exists [], []. repeat split; auto. intros ? ? _ Hlen. simpl in Hlen. lia.
  - simpl in H. destruct (matchAt re sn (c :: rs)) eqn:E.
    + simplify_eq. exists [], (c :: rs). repeat split; auto.
      intros ? ? _ Hlen. simpl in Hlen. lia.
    + apply IH in H as (skipped & rs' & -> & Hm & Hbefore).
      exists (c :: skipped), rs'. repeat split; auto.
      * simpl. by rewrite <- app_assoc.
      * intros skipped' rs'' Heq Hlen.
        destruct skipped' as [|c' skipped']; simpl in Heq; simplify_eq; [done|].
        simpl. rewrite <- app_assoc. apply Hbefore; [done|]. simpl in Hlen. lia.
Qed.
End Scan.

(** ** Character classes, decided on the ASCII table *)

Section Classes.

Lemma below_cases (P : N → bool) (n : nat) :
  forallb P (N.of_nat <$> seq 0 n) = true → ∀ c, (c < N.of_nat n)%N → P c = true.
Proof.
  intros H c Hc. rewrite forallb_forall in H. apply H.
  apply list_elem_of_In, list_elem_of_fmap. exists (N.to_nat c).
  split; [lia|]. apply list_elem_of_In, in_seq. lia.
Qed.

Lemma inRange_above lo hi c : (hi < c)%N → inRange lo hi c = false.
Proof. unfold inRange. intros. apply andb_false_iff. right. apply N.leb_gt. lia. Qed.

Lemma eqb_above d c : (d < c)%N → (c =? d)%N = false.
Proof. intros. apply N.eqb_neq. lia. Qed.

Lemma asciiUpper_above c : (122 < c)%N → asciiUpper c = c.
Proof. intros. unfold asciiUpper, isLower. by rewrite inRange_above. Qed.

Lemma asciiLower_above c : (122 < c)%N → asciiLower c = c.
Proof. intros. unfold asciiLower, isUpper. by rewrite inRange_above by lia. Qed.

Lemma repeatMatcher_ext ok ok' min max caps sn rs (k k' : Continuation) :
  (∀ c, ok c = ok' c) → (∀ st, k st = k' st) →
  repeatMatcher ok min max caps sn rs k = repeatMatcher ok' min max caps sn rs k'.
Proof.
  intros Hok Hk. revert min max sn.
  induction rs as [|c rs IH]; intros min max sn; simpl.
  - rewrite Hk. by destruct max as [[|]|], min.
  - rewrite !Hk, Hok, IH. done.
Qed.
End Classes.

(** Above the ASCII letters every class test of the worker is false. *)
Ltac above_ascii :=
  repeat first
    [ rewrite asciiUpper_above by lia
    | rewrite asciiLower_above by lia
    | rewrite inRange_above by lia
    | rewrite eqb_above by lia
    | rewrite bool_decide_eq_false_2 by (rewrite !elem_of_cons, elem_of_nil; lia) ];
  try reflexivity.

(** Two predicates on code units agree: on the ASCII table by evaluation,
    above it by what is left to prove. *)
Ltac by_ascii_table c :=
  apply eqb_prop;
  destruct (decide (c < 128)%N) as [Hlt|Hge];
  [ revert c Hlt; apply (below_cases _ 128); vm_compute; reflexivity
  | ].

(** ** The address pattern *)

Section Address.
Implicit Types (sn rs : jsstring).

Lemma localClass_spec c : charSetMatches true localClass c = isLocalChar c.
Proof.
  by_ascii_table c.
  unfold charSetMatches, localClass, isLocalChar, isLetter, isUpper, isLower, isDigit; simpl.
  above_ascii.
Qed.

Lemma domainClass_spec c : charSetMatches true domainClass c = isDomainChar c.
Proof.
  by_ascii_table c.
  unfold charSetMatches, domainClass, isDomainChar, isLetter, isUpper, isLower, isDigit; simpl.
  above_ascii.
Qed.

Lemma letterClass_spec c : charSetMatches true [Range 65 90] c = isLetter c.
Proof.
  by_ascii_table c.
  unfold charSetMatches, isLetter, isUpper, isLower; simpl. above_ascii.
Qed.

Lemma singleClass_spec ic d c : (d < 65)%N → charSetMatches ic [Single d] c = (c =? d)%N.
Proof.
  intros Hd. unfold charSetMatches; simpl. rewrite orb_false_r.
  destruct (N.eqb_spec c d) as [->|Hne]; [done|]. simpl.
  destruct ic; [|done]. simpl.
  unfold asciiUpper, asciiLower, isLower, isUpper, inRange.
  repeat match goal with
         | |- context [(?a <=? ?b)%N] => destruct (N.leb_spec a b); simpl
         end;
    repeat match goal with
           | |- context [(?a =? ?b)%N] => destruct (N.eqb_spec a b); simpl
           end; try reflexivity; lia.
Qed.

Lemma address_matcher_unfold st :
  matcher true (source ADDRESS_REGEX) st Some
  = repeatMatcher isLocalChar 1 None (captures st) (seen st) (rest st) domainK.
Proof.
  unfold ADDRESS_REGEX. cbn [source matcher rest seen captures].
  apply repeatMatcher_ext; [apply localClass_spec|].
  intros st1. unfold domainK. destruct (rest st1) as [|c rs1]; [done|].
  rewrite singleClass_spec by lia. destruct (c =? 64)%N; [|done].
  apply repeatMatcher_ext; [apply domainClass_spec|].
  intros st2. unfold tldK. cbn [rest seen captures]. destruct (rest st2) as [|d rs2]; [done|].
  rewrite singleClass_spec by lia. destruct (d =? 46)%N; [|done].
  apply repeatMatcher_ext; [apply letterClass_spec|done].
Qed.

Lemma nonempty_length {A} (l : list A) : l ≠ [] ↔ (1 ≤ length l)%nat.
Proof. destruct l; simpl; split; intros; try done; lia. Qed.

Lemma within_None n : within None n.
Proof. intros M HM. done. Qed.

Lemma address_complete caps sn rs L D T post :
  AddressSplit rs L D T post →
  matcher true (source ADDRESS_REGEX) (mkState sn rs caps) Some ≠ None.
Proof.
  intros (-> & HL & HLok & HD & HDok & HT & HTok) Hnone.
  rewrite address_matcher_unfold in Hnone. cbn [mkState seen rest captures] in Hnone.
  eapply (repeatMatcher_None _ _ _ _ _ _ _ (within_None _)) in Hnone;
    [ | reflexivity | exact HLok | by apply nonempty_length | apply within_None ].
  unfold domainK in Hnone. cbn in Hnone.
  eapply (repeatMatcher_None _ _ _ _ _ _ _ (within_None _)) in Hnone;
    [ | reflexivity | exact HDok | by apply nonempty_length | apply within_None ].
  unfold tldK in Hnone. cbn in Hnone.
  eapply (repeatMatcher_None _ _ _ _ _ _ _ (within_None _)) in Hnone;
    [ | reflexivity | exact HTok | done | apply within_None ].
  done.
Qed.

Lemma address_sound caps sn rs st :
  matcher true (source ADDRESS_REGEX) (mkState sn rs caps) Some = Some st →
  ∃ L D T post,
    AddressSplit rs L D T post
    ∧ seen st = rev (L ++ [64%N] ++ D ++ [46%N] ++ T) ++ sn
    ∧ (∀ D' T' post', D ++ [46%N] ++ T ++ post = D' ++ [46%N] ++ T' ++ post' →
         allOf isDomainChar D' → (2 ≤ length T')%nat → allOf isLetter T' →
         (length D' ≤ length D)%nat)
    ∧ (∀ T' post', T ++ post = T' ++ post' → allOf isLetter T' →
         (length T' ≤ length T)%nat).
Proof.
  intros H. rewrite address_matcher_unfold in H. cbn [mkState seen rest captures] in H.
  apply repeatMatcher_Some in H as (L & p1 & -> & HLok & HL & _ & H & _);
    [|apply within_None].
  unfold domainK in H. cbn [mkState seen rest captures] in H.
  destruct p1 as [|c p1]; [done|]. destruct (N.eqb_spec c 64) as [->|]; [|done].
  apply repeatMatcher_Some in H as (D & p2 & -> & HDok & HD & _ & H & HDmax);
    [|apply within_None].
  unfold tldK in H. cbn [mkState seen rest captures] in H.
  destruct p2 as [|d p2]; [done|]. destruct (N.eqb_spec d 46) as [->|]; [|done].
  apply repeatMatcher_Some in H as (T & post & -> & HTok & HT & _ & H & HTmax);
    [|apply within_None].
  simplify_eq. exists L, D, T, post. split; [|split; [|split]].
  - repeat split; auto; by apply nonempty_length.
  - cbn [seen]. rewrite !rev_app_distr. simpl. by rewrite <- !app_assoc.
  - intros D' T' post' Heq HD'ok HT' HT'ok.
    destruct (decide (length D' ≤ length D)%nat) as [|Hgt]; [done|]. exfalso.
    specialize (HDmax D' ([46%N] ++ T' ++ post') Heq HD'ok ltac:(lia) (within_None _)).
    unfold tldK in HDmax. cbn in HDmax.
    eapply (repeatMatcher_None _ _ _ _ _ _ _ (within_None _)) in HDmax;
      [ | reflexivity | exact HT'ok | done | apply within_None ].
    done.
  - intros T' post' Heq HT'ok.
    destruct (decide (length T' ≤ length T)%nat) as [|Hgt]; [done|]. exfalso.
    specialize (HTmax T' post' Heq HT'ok ltac:(lia) (within_None _)). done.
Qed.

(** Two runs of [ok] characters, each ended by a character that is not
    [ok], are the same run. *)
Lemma run_unique ok L L' c c' x y :
  L ++ c :: x = L' ++ c' :: y → allOf ok L → allOf ok L' →
  ok c = false → ok c' = false → L = L' ∧ x = y.
Proof.
  revert L'. induction L as [|a L IH]; intros [|a' L'] Heq HL HL' Hc Hc';
    simpl in Heq; simplify_eq.
  - done.
  - inversion HL' as [|? ? Ha]; subst. congruence.
  - inversion HL as [|? ? Ha]; subst. congruence.
  - inversion HL; inversion HL'; subst.
    destruct (IH L' H0) as [-> ->]; auto.
Qed.

Lemma address_longest rs L D T post L' D' T' post' :
  AddressSplit rs L D T post → AddressSplit rs L' D' T' post' →
  (∀ D' T' post', D ++ [46%N] ++ T ++ post = D' ++ [46%N] ++ T' ++ post' →
     allOf isDomainChar D' → (2 ≤ length T')%nat → allOf isLetter T' →
     (length D' ≤ length D)%nat) →
  (∀ T' post', T ++ post = T' ++ post' → allOf isLetter T' →
     (length T' ≤ length T)%nat) →
  (length L' + length D' + length T' ≤ length L + length D + length T)%nat.
Proof.
  intros (-> & HL & HLok & HD & HDok & HT & HTok)
         (Heq & HL' & HL'ok & HD' & HD'ok & HT' & HT'ok) HDmax HTmax.
  simpl in Heq. apply run_unique with (ok := isLocalChar) in Heq as [-> Heq]; auto.
  specialize (HDmax D' T' post' Heq HD'ok HT' HT'ok).
  destruct (decide (length D' = length D)) as [Hlen|Hlen].
  - apply app_inj_1 in Heq as [-> Heq]; [|done]. simplify_eq.
    specialize (HTmax T' post' Heq HT'ok). lia.
  - destruct (decide (length D ≤ length D' + length T')%nat) as [Hin|]; [|lia].
    exfalso.
    assert (Hdot : (D' ++ 46%N :: T' ++ post') !! length D = Some 46%N).
    { simpl in Heq. rewrite <- Heq. by apply list_lookup_middle. }
    rewrite lookup_app_r in Hdot by lia.
    destruct (length D - length D')%nat as [|i] eqn:Ei; [lia|]. simpl in Hdot.
    rewrite lookup_app_l in Hdot by lia.
    unfold allOf in HT'ok. rewrite Forall_lookup in HT'ok.
    by apply HT'ok in Hdot.
Qed.

Lemma IsAddress_split m post :
  IsAddress m ↔ ∃ L D T, m = L ++ [64%N] ++ D ++ [46%N] ++ T
                        ∧ AddressSplit (m ++ post) L D T post.
Proof.
  split.
  - intros (L & D & T & -> & H). exists L, D, T. split; [done|]. split; [|done].
    by rewrite <- !app_assoc.
  - intros (L & D & T & -> & _ & H). by exists L, D, T.
Qed.

Lemma matchAt_address_Some sn rs m :
  matchAt ADDRESS_REGEX sn rs = Some m →
  index m = length sn
  ∧ ∃ post, rs = whole m ++ post ∧ IsAddress (whole m)
      ∧ ∀ m' post', rs = m' ++ post' → IsAddress m' → (length m' ≤ length (whole m))%nat.
Proof.
  unfold matchAt. intros H.
  destruct (matcher _ _ _ _) as [st|] eqn:E; [|done]. simplify_eq. cbn [index whole].
  split; [done|].
  apply address_sound in E as (L & D & T & post & Hsplit & Hseen & HDmax & HTmax).
  pose proof Hsplit as (-> & Hparts).
  assert (Hwhole : take (length (seen st) - length sn)
                     (L ++ [64%N] ++ D ++ [46%N] ++ T ++ post)
                   = L ++ [64%N] ++ D ++ [46%N] ++ T).
  { rewrite Hseen, length_app, length_rev.
    replace (L ++ [64%N] ++ D ++ [46%N] ++ T ++ post)
      with ((L ++ [64%N] ++ D ++ [46%N] ++ T) ++ post) by (by rewrite <- !app_assoc).
    apply take_app_length'. lia. }
  rewrite Hwhole. exists post. split; [by rewrite <- !app_assoc|].
  split; [by exists L, D, T|].
  intros m' post' Heq (L' & D' & T' & -> & Hparts').
  assert (AddressSplit (L ++ [64%N] ++ D ++ [46%N] ++ T ++ post) L' D' T' post') as Hsplit'.
  { split; [|done]. rewrite Heq. by rewrite <- !app_assoc. }
  pose proof (address_longest _ _ _ _ _ _ _ _ _ Hsplit Hsplit' HDmax HTmax).
  rewrite !length_app. simpl. lia.
Qed.

Lemma matchAt_address_None sn rs :
  matchAt ADDRESS_REGEX sn rs = None →
  ∀ m' post', rs = m' ++ post' → ¬ IsAddress m'.
Proof.
  unfold matchAt. intros H m' post' -> (L & D & T & -> & Hparts).
  destruct (matcher _ _ _ _) as [st|] eqn:E; [done|].
  eapply address_complete in E; [done|].
  split; [|exact Hparts]. by rewrite <- !app_assoc.
Qed.

End Address.

(** ** Lower-casing an address *)

Section Lower.

Lemma lowerCodeUnit_above c : (222 < c)%N → lowerCodeUnit c = c.
Proof.
  intros. unfold lowerCodeUnit, isUpper. rewrite !inRange_above by lia. done.
Qed.

Lemma N_eqb_prop (a b : N) : (a =? b)%N = true → a = b.
Proof. apply N.eqb_eq. Qed.

Lemma lowerCodeUnit_idemp c : lowerCodeUnit (lowerCodeUnit c) = lowerCodeUnit c.
Proof.
  destruct (decide (c < 256)%N) as [Hlt|Hge].
  - apply N_eqb_prop. revert c Hlt. apply (below_cases _ 256). vm_compute. reflexivity.
  - rewrite (lowerCodeUnit_above c) by lia. apply lowerCodeUnit_above. lia.
Qed.

Lemma toLowerCase_idemp s : toLowerCase (toLowerCase s) = toLowerCase s.
Proof.
  unfold toLowerCase. rewrite <- list_fmap_compose. apply list_fmap_ext.
  intros _ c _. apply lowerCodeUnit_idemp.
Qed.

Lemma lowerCodeUnit_class (p : N → bool) c :
  forallb (λ c, eqb (p (lowerCodeUnit c)) (p c)) (N.of_nat <$> seq 0 256) = true →
  (∀ c, (255 < c)%N → p c = false) →
  p (lowerCodeUnit c) = p c.
Proof.
  intros Htable Habove. destruct (decide (c < 256)%N) as [Hlt|Hge].
  - apply eqb_prop. revert c Hlt. by apply (below_cases _ 256).
  - rewrite lowerCodeUnit_above by lia. done.
Qed.

Lemma lower_isLocalChar c : isLocalChar (lowerCodeUnit c) = isLocalChar c.
Proof.
  apply lowerCodeUnit_class; [vm_compute; reflexivity|]. intros d Hd.
  unfold isLocalChar, isLetter, isUpper, isLower, isDigit. above_ascii.
Qed.

Lemma lower_isDomainChar c : isDomainChar (lowerCodeUnit c) = isDomainChar c.
Proof.
  apply lowerCodeUnit_class; [vm_compute; reflexivity|]. intros d Hd.
  unfold isDomainChar, isLetter, isUpper, isLower, isDigit. above_ascii.
Qed.

Lemma lower_isLetter c : isLetter (lowerCodeUnit c) = isLetter c.
Proof.
  apply lowerCodeUnit_class; [vm_compute; reflexivity|]. intros d Hd.
  unfold isLetter, isUpper, isLower. above_ascii.
Qed.

Lemma allOf_toLowerCase (p : N → bool) s :
  (∀ c, p (lowerCodeUnit c) = p c) → allOf p s → allOf p (toLowerCase s).
Proof.
  intros Hp H. unfold allOf, toLowerCase. apply Forall_fmap.
  eapply Forall_impl; [exact H|]. intros c Hc. simpl. by rewrite Hp.
Qed.

Lemma IsAddress_toLowerCase m : IsAddress m → IsAddress (toLowerCase m).
Proof.
  intros (L & D & T & -> & HL & HLok & HD & HDok & HT & HTok).
  exists (toLowerCase L), (toLowerCase D), (toLowerCase T).
  unfold toLowerCase. rewrite !fmap_app. split; [done|].
  repeat split.
  - by destruct L.
  - apply allOf_toLowerCase; auto using lower_isLocalChar.
  - by destruct D.
  - apply allOf_toLowerCase; auto using lower_isDomainChar.
  - by rewrite length_fmap.
  - apply allOf_toLowerCase; auto using lower_isLetter.
Qed.

Lemma IsAddress_nonempty m : IsAddress m → m ≠ [].
Proof. intros (L & D & T & -> & HL & _). by destruct L. Qed.

End Lower.

(** ** [extractEmailAddress] *)

Section Extract.

Lemma scan_first re sn rs m : matchAt re sn rs = Some m → scan re sn rs = Some m.
Proof. intros H. destruct rs; cbn [scan]; by rewrite H. Qed.

Lemma exec_address_Some x m :
  exec ADDRESS_REGEX x = Some m →
  ∃ l r, x = l ++ whole m ++ r ∧ index m = length l ∧ IsAddress (whole m)
    ∧ (∀ l' m' r', x = l' ++ m' ++ r' → IsAddress m' → (length l ≤ length l')%nat)
    ∧ (∀ m' r', x = l ++ m' ++ r' → IsAddress m' → (length m' ≤ length (whole m))%nat).
Proof.
  intros H. apply scan_Some in H as (l & rs & -> & Hm & Hbefore).
  apply matchAt_address_Some in Hm as (Hidx & r & -> & Haddr & Hlongest).
  exists l, r. repeat split; auto.
  - by rewrite Hidx, length_app, length_rev.
  - intros l' m' r' Heq Haddr'.
    destruct (decide (length l ≤ length l')%nat) as [|Hlt]; [done|]. exfalso.
    specialize (Hbefore l' (m' ++ r') Heq ltac:(lia)).
    by eapply matchAt_address_None in Hbefore.
  - intros m' r' Heq Haddr'. apply app_inv_head in Heq. by eapply Hlongest.
Qed.

Lemma exec_address_None x :
  exec ADDRESS_REGEX x = None → ∀ l m r, x = l ++ m ++ r → ¬ IsAddress m.
Proof.
  intros H l m r Heq. eapply scan_None in H; [|exact Heq].
  by eapply matchAt_address_None in H.
Qed.

Lemma exec_address_fixed a :
  IsAddress a → ∃ m, exec ADDRESS_REGEX a = Some m ∧ whole m = a.
Proof.
  intros Ha. unfold exec.
  destruct (matchAt ADDRESS_REGEX [] a) as [m|] eqn:E.
  - exists m. split; [by apply scan_first|].
    apply matchAt_address_Some in E as (_ & post & Heq & _ & Hlongest).
    specialize (Hlongest a [] (eq_sym (app_nil_r a)) Ha).
    assert (length post = 0%nat) as Hpost.
    { apply (f_equal length) in Heq. rewrite length_app in Heq. lia. }
    destruct post; [|done]. by rewrite app_nil_r in Heq.
  - exfalso. eapply (matchAt_address_None _ _ E a []); [by rewrite app_nil_r|exact Ha].
Qed.

Lemma extractEmailAddress_Some_inv x a :
  extractEmailAddress x = Some a →
  ∃ v m, x = Some v ∧ exec ADDRESS_REGEX v = Some m ∧ a = toLowerCase (whole m).
Proof.
  destruct x as [[|c v]|]; simpl; try done.
  destruct (exec ADDRESS_REGEX (c :: v)) as [m|] eqn:E; [|done].
  intros [= <-]. by exists (c :: v), m.
Qed.

Lemma extractEmailAddress_normal a :
  IsAddress a → extractEmailAddress (Some a) = Some (toLowerCase a).
Proof.
  intros Ha. destruct (exec_address_fixed a Ha) as (m & E & Hm).
  pose proof (IsAddress_nonempty a Ha).
  unfold extractEmailAddress. destruct a; [done|]. by rewrite E, Hm.
Qed.

(** C8.  [extractEmailAddress] is absent for a missing or empty input and for
    an input with no substring of the address shape; otherwise it is the
    lower-cased text of the match that starts leftmost and, there, is the
    longest.  Applying it to its own result changes nothing. *)
Theorem extractEmailAddress_first_match_idempotent :
  extractEmailAddress None = None
  ∧ extractEmailAddress (Some []) = None
  ∧ (∀ x a, extractEmailAddress (Some x) = Some a →
       ∃ l m r, x = l ++ m ++ r ∧ IsAddress m ∧ a = toLowerCase m
         ∧ (∀ l' m' r', x = l' ++ m' ++ r' → IsAddress m' → (length l ≤ length l')%nat)
         ∧ (∀ m' r', x = l ++ m' ++ r' → IsAddress m' → (length m' ≤ length m)%nat))
  ∧ (∀ x, extractEmailAddress (Some x) = None →
       ∀ l m r, x = l ++ m ++ r → ¬ IsAddress m)
  ∧ (∀ x, extractEmailAddress (extractEmailAddress x) = extractEmailAddress x).
Proof.
  split; [done|]. split; [done|]. split; [|split].
  - intros x a H. apply extractEmailAddress_Some_inv in H as (v & m & [= <-] & E & ->).
    apply exec_address_Some in E as (l & r & Heq & _ & Ha & Hleft & Hlong).
    exists l, (whole m), r. auto.
  - intros x H l m r Heq Ha. destruct x as [|c v].
    + destruct l, m; try done. by apply IsAddress_nonempty in Ha.
    + simpl in H. destruct (exec ADDRESS_REGEX (c :: v)) eqn:E; [done|].
      by eapply exec_address_None in E.
  - intros x. destruct (extractEmailAddress x) as [a|] eqn:E; [|done].
    apply extractEmailAddress_Some_inv in E as (v & m & -> & E & ->).
    apply exec_address_Some in E as (l & r & _ & _ & Ha & _).
    rewrite extractEmailAddress_normal by by apply IsAddress_toLowerCase.
    by rewrite toLowerCase_idemp.
Qed.

End Extract.

(** ** The code pattern and [extractCode] *)

Section Code.
Implicit Types (sn rs l d r : jsstring).

Lemma last_rev sn : last (rev sn) = head sn.
Proof. destruct sn as [|c sn]; [done|]. simpl. apply last_snoc. Qed.

Lemma isWordBoundary_spec sn rs caps :
  isWordBoundary (mkState sn rs caps) = wordBoundary (rev sn) rs.
Proof.
  unfold isWordBoundary, wordBoundary. rewrite last_rev. simpl.
  by destruct sn, rs.
Qed.

Lemma digitClass_spec c : charSetMatches false [Range 48 57] c = isDigit c.
Proof. unfold charSetMatches. simpl. by rewrite !orb_false_r. Qed.

Lemma within_Some (n M : nat) : (n ≤ M)%nat → within (Some M) n.
Proof. intros H M' [= <-]. done. Qed.

Lemma code_matcher_unfold sn rs :
  matcher false (source CODE_REGEX) (mkState sn rs [None]) Some
  = if wordBoundary (rev sn) rs
    then repeatMatcher isDigit 5 (Some 6) [None] sn rs
           (λ st, if wordBoundary (rev (seen st)) (rest st)
                  then Some (setCapture 0 (mkState sn rs [None]) st) else None)
    else None.
Proof.
  unfold CODE_REGEX. cbn [source matcher]. rewrite isWordBoundary_spec.
  destruct (wordBoundary (rev sn) rs); [|done]. cbn [mkState seen rest captures].
  apply repeatMatcher_ext; [apply digitClass_spec|].
  intros st. unfold setCapture at 1. unfold isWordBoundary, wordBoundary.
  cbn [seen rest]. rewrite last_rev. by destruct (seen st), (rest st).
Qed.

Lemma code_sound sn rs st :
  matcher false (source CODE_REGEX) (mkState sn rs [None]) Some = Some st →
  ∃ d r, rs = d ++ r ∧ IsCodeToken (rev sn) d r ∧ captures st = [Some d].
Proof.
  rewrite code_matcher_unfold. destruct (wordBoundary (rev sn) rs) eqn:Hb; [|done].
  intros H. apply repeatMatcher_Some in H as (d & r & -> & Hd & Hmin & Hmax & H & _);
    [|by apply within_Some; lia].
  cbn [mkState seen rest] in H.
  destruct (wordBoundary (rev (rev d ++ sn)) r) eqn:Hb'; [|done]. simplify_eq.
  specialize (Hmax 6%nat eq_refl).
  exists d, r. split; [done|]. split.
  - repeat split; auto; [lia|]. by rewrite rev_app_distr, rev_involutive in Hb'.
  - unfold setCapture. cbn [mkState seen rest captures]. simpl.
    rewrite length_app, length_rev.
    replace (length d + length sn - length sn)%nat with (length (rev d)) by (rewrite length_rev; lia).
    by rewrite take_app_length, rev_involutive.
Qed.

Lemma code_complete sn d r :
  IsCodeToken (rev sn) d r →
  matcher false (source CODE_REGEX) (mkState sn (d ++ r) [None]) Some ≠ None.
Proof.
  intros (Hd & Hlen & Hb & Hb') Hnone. rewrite code_matcher_unfold, Hb in Hnone.
  eapply repeatMatcher_None in Hnone;
    [ | by apply within_Some; lia | reflexivity | exact Hd | lia | apply within_Some; lia ].
  cbn [mkState seen rest] in Hnone.
  by rewrite rev_app_distr, rev_involutive, Hb' in Hnone.
Qed.

Lemma isDigit_isWordChar c : isDigit c = true → isWordChar c = true.
Proof. unfold isWordChar. intros ->. by rewrite orb_true_r. Qed.

(** A token is followed by no digit. *)
Lemma IsCodeToken_maximal l d r d' r' :
  d ++ r = d' ++ r' → (length d < length d')%nat →
  IsCodeToken l d r → allOf isDigit d' → False.
Proof.
  intros Heq Hlen (Hd & Hn & _ & Hb) Hd'.
  assert (d' = d ++ drop (length d) d' ∧ r = drop (length d) d' ++ r') as [Hd'eq ->].
  { rewrite <- (take_drop (length d) d') in Heq at 1. rewrite <- app_assoc in Heq.
    apply app_inj_1 in Heq as [Ht Hr]; [|rewrite length_take; lia].
    split; [|done]. rewrite Ht at 1. by rewrite take_drop. }
  destruct (drop (length d) d') as [|x t] eqn:Edrop.
  { apply (f_equal length) in Edrop. rewrite length_drop in Edrop. simpl in Edrop. lia. }
  assert (isDigit x = true) as Hx.
  { rewrite Hd'eq in Hd'. apply Forall_app in Hd' as [_ Hd']. by inversion Hd'. }
  destruct (last d) as [y|] eqn:Ey.
  2:{ apply last_None in Ey. subst d. simpl in Hn. lia. }
  assert (isDigit y = true) as Hy.
  { unfold allOf in Hd. rewrite Forall_forall in Hd. apply Hd.
    rewrite last_lookup in Ey. by eapply list_elem_of_lookup_2. }
  unfold wordBoundary in Hb. rewrite last_app, Ey in Hb. simpl in Hb.
  by rewrite !isDigit_isWordChar in Hb.
Qed.

(** At one starting position there is at most one token. *)
Lemma IsCodeToken_unique l d r d' r' :
  d ++ r = d' ++ r' → IsCodeToken l d r → IsCodeToken l d' r' → d = d'.
Proof.
  intros Heq Ht Ht'. destruct (decide (length d = length d')) as [E|E].
  - by apply app_inj_1 in Heq as [-> _].
  - exfalso. destruct (decide (length d < length d')%nat).
    + eapply (IsCodeToken_maximal l d r d' r'); eauto. apply Ht'.
    + eapply (IsCodeToken_maximal l d' r' d r); eauto; [lia|]. apply Ht.
Qed.

Lemma matchAt_code_Some sn rs m :
  matchAt CODE_REGEX sn rs = Some m →
  ∃ d r, rs = d ++ r ∧ IsCodeToken (rev sn) d r ∧ groups m = [Some d].
Proof.
  unfold matchAt. change (replicate (nGroups CODE_REGEX) None) with [@None jsstring].
  change (ignoreCase CODE_REGEX) with false.
  destruct (matcher _ _ _ _) as [st|] eqn:E; [|done]. intros [= <-].
  apply code_sound in E as (d & r & -> & Ht & Hc). by exists d, r.
Qed.

Lemma matchAt_code_None sn rs :
  matchAt CODE_REGEX sn rs = None →
  ∀ d r, rs = d ++ r → ¬ IsCodeToken (rev sn) d r.
Proof.
  unfold matchAt. change (replicate (nGroups CODE_REGEX) None) with [@None jsstring].
  change (ignoreCase CODE_REGEX) with false.
  intros H d r -> Ht. destruct (matcher _ _ _ _) as [st|] eqn:E; [done|].
  by eapply code_complete in E.
Qed.

Lemma rev_rev_nil l : rev (rev l ++ []) = l.
Proof. by rewrite app_nil_r, rev_involutive. Qed.

Lemma extractCode_Some s d :
  extractCode s = Some d →
  ∃ l r, s = l ++ d ++ r ∧ IsCodeToken l d r
    ∧ ∀ l' d' r', s = l' ++ d' ++ r' → IsCodeToken l' d' r' →
        (length l ≤ length l')%nat ∧ (length l' = length l → d' = d).
Proof.
  unfold extractCode. destruct (exec CODE_REGEX s) as [m|] eqn:E; [|done].
  intros Hg. apply scan_Some in E as (l & rs & -> & Hm & Hbefore).
  apply matchAt_code_Some in Hm as (d0 & r & -> & Ht & Hgroups).
  rewrite Hgroups in Hg. simpl in Hg. simplify_eq. rewrite rev_rev_nil in Ht.
  exists l, r. split; [done|]. split; [done|]. intros l' d' r' H Ht'. split.
  - destruct (decide (length l ≤ length l')%nat) as [|Hlt]; [done|]. exfalso.
    specialize (Hbefore l' (d' ++ r') H ltac:(lia)).
    eapply matchAt_code_None in Hbefore; [|done]. by rewrite rev_rev_nil in Hbefore.
  - intros Hlen. apply app_inj_1 in H as [-> Heq]; [|done].
    symmetry. by eapply IsCodeToken_unique.
Qed.

Lemma extractCode_None s :
  extractCode s = None → ∀ l d r, s = l ++ d ++ r → ¬ IsCodeToken l d r.
Proof.
  unfold extractCode. intros H l d r Heq Ht.
  destruct (exec CODE_REGEX s) as [m|] eqn:E.
  - apply scan_Some in E as (l0 & rs & _ & Hm & _).
    apply matchAt_code_Some in Hm as (d0 & r0 & _ & _ & Hg). by rewrite Hg in H.
  - eapply scan_None in E; [|exact Heq].
    eapply matchAt_code_None in E; [|done]. by rewrite rev_rev_nil in E.
Qed.

Lemma IsCodeToken_nonempty l d r : IsCodeToken l d r → d ≠ [].
Proof. intros (_ & Hlen & _) ->. simpl in Hlen. lia. Qed.

(** A token lies in no digit run of fewer than five or more than six
    digits. *)
Lemma no_token_in_run l ds r l' d r' :
  allOf (λ c, negb (isDigit c)) l → allOf (λ c, negb (isDigit c)) r →
  allOf isDigit ds → (length ds < 5 ∨ 6 < length ds)%nat →
  l ++ ds ++ r = l' ++ d ++ r' → ¬ IsCodeToken l' d r'.
Proof.
  intros Hl Hr Hds Hlen Heq (Hd & Hn & Hb & Hb').
  set (s := l ++ ds ++ r) in *.
  assert (Hdigit : ∀ p c, s !! p = Some c → isDigit c = true →
            (length l ≤ p < length l + length ds)%nat).
  { intros p c Hp Hc. unfold s in Hp.
    destruct (decide (p < length l)%nat).
    { rewrite lookup_app_l in Hp by done. unfold allOf in Hl.
      rewrite Forall_lookup in Hl. apply Hl in Hp. by rewrite Hc in Hp. }
    rewrite lookup_app_r in Hp by lia.
    destruct (decide (p - length l < length ds)%nat); [lia|].
    rewrite lookup_app_r in Hp by lia. unfold allOf in Hr.
    rewrite Forall_lookup in Hr. apply Hr in Hp. by rewrite Hc in Hp. }
  assert (Htok : ∀ i, (i < length d)%nat →
            ∃ c, s !! (length l' + i)%nat = Some c ∧ isDigit c = true).
  { intros i Hi. destruct (lookup_lt_is_Some_2 d i Hi) as [c Hc]. exists c. split.
    - rewrite Heq, lookup_app_r by lia.
      replace (length l' + i - length l')%nat with i by lia.
      by rewrite lookup_app_l.
    - unfold allOf in Hd. rewrite Forall_lookup in Hd. by eapply Hd. }
  destruct (Htok 0%nat ltac:(lia)) as (c0 & Hc0 & Hc0d).
  destruct (Htok (length d - 1)%nat ltac:(lia)) as (c1 & Hc1 & Hc1d).
  pose proof (Hdigit _ _ Hc0 Hc0d) as Hp0. pose proof (Hdigit _ _ Hc1 Hc1d) as Hp1.
  assert (Hfirst : head (d ++ r') = Some c0).
  { rewrite head_lookup. rewrite Heq, lookup_app_r in Hc0 by lia.
    by replace (length l' + 0 - length l')%nat with 0%nat in Hc0 by lia. }
  destruct (decide (length l < length l')%nat) as [Hlt|Hge].
  - (* a digit stands before the token *)
    assert (∃ c, last l' = Some c ∧ isDigit c = true) as (c & Hc & Hcd).
    { destruct (lookup_lt_is_Some_2 l' (pred (length l')) ltac:(lia)) as [c Hc].
      exists c. split; [by rewrite last_lookup|].
      assert (s !! pred (length l') = Some c) as Hs by (by rewrite Heq, lookup_app_l by lia).
      unfold s in Hs. rewrite lookup_app_r, lookup_app_l in Hs by lia.
      unfold allOf in Hds. rewrite Forall_lookup in Hds. by eapply Hds. }
    unfold wordBoundary in Hb. rewrite Hc, Hfirst in Hb. simpl in Hb.
    by rewrite !isDigit_isWordChar in Hb.
  - (* the token starts the run, which goes on after it *)
    assert (length l' = length l) as Hlen' by lia.
    unfold s in Heq. apply app_inj_1 in Heq as [_ Heq]; [|done].
    assert (length d < length ds)%nat as Hshort by lia.
    apply (IsCodeToken_maximal l' d r' (take (S (length d)) ds)
             (drop (S (length d)) ds ++ r)).
    + by rewrite <- Heq, app_assoc, take_drop.
    + rewrite length_take. lia.
    + done.
    + by apply Forall_take.
Qed.

(** C4.  [extractCode] returns, verbatim, the leftmost token of five or six
    decimal digits that has a word boundary on both sides (at a position
    there is one such token at most), and is absent exactly when the text has
    none; a run of fewer than five or more than six digits yields nothing. *)
Theorem extractCode_first_token :
  (∀ s d, extractCode s = Some d →
     ∃ l r, s = l ++ d ++ r ∧ IsCodeToken l d r
       ∧ ∀ l' d' r', s = l' ++ d' ++ r' → IsCodeToken l' d' r' →
           (length l ≤ length l')%nat ∧ (length l' = length l → d' = d))
  ∧ (∀ s, extractCode s = None → ∀ l d r, s = l ++ d ++ r → ¬ IsCodeToken l d r)
  ∧ (∀ l ds r,
       allOf (λ c, negb (isDigit c)) l → allOf (λ c, negb (isDigit c)) r →
       allOf isDigit ds → (length ds < 5 ∨ 6 < length ds)%nat →
       extractCode (l ++ ds ++ r) = None).
Proof.
  split; [exact extractCode_Some|]. split; [exact extractCode_None|].
  intros l ds r Hl Hr Hds Hlen.
  destruct (extractCode (l ++ ds ++ r)) as [d|] eqn:E; [|done]. exfalso.
  apply extractCode_Some in E as (l' & r' & Heq & Ht & _).
  exact (no_token_in_run l ds r l' d r' Hl Hr Hds Hlen Heq Ht).
Qed.

End Code.

(** ** [getRecipients] *)

Section Recipients.

Lemma extractEmailAddress_address x a :
  extractEmailAddress x = Some a → IsAddress a ∧ extractEmailAddress (Some a) = Some a.
Proof.
  intros H. apply extractEmailAddress_Some_inv in H as (v & m & -> & E & ->).
  apply exec_address_Some in E as (l & r & _ & _ & Ha & _).
  apply IsAddress_toLowerCase in Ha. split; [done|].
  by rewrite extractEmailAddress_normal, toLowerCase_idemp.
Qed.

Lemma extractEmailAddress_truthy x a :
  extractEmailAddress x = Some a → truthy (Some a) = true.
Proof.
  intros [Ha%IsAddress_nonempty _]%extractEmailAddress_address. by destruct a.
Qed.

Lemma extractEmailAddress_default entry :
  extractEmailAddress (Some (default [] entry)) = extractEmailAddress entry.
Proof. by destruct entry. Qed.

Lemma NoDup_keepFirst l : NoDup (keepFirst l).
Proof.
  induction l as [|x l IH]; simpl; [constructor|].
  apply NoDup_cons. split; [|by apply NoDup_filter].
  rewrite list_elem_of_filter. by intros [? _].
Qed.

Lemma elem_of_keepFirst l x : x ∈ keepFirst l ↔ x ∈ l.
Proof.
  induction l as [|y l IH]; simpl; [done|].
  rewrite !elem_of_cons, list_elem_of_filter, IH.
  destruct (decide (x = y)); intuition congruence.
Qed.

Lemma filter_notin_nil (l : list jsstring) : filter (λ y, y ∉ []) l = l.
Proof.
  induction l as [|x l IH]; [done|].
  rewrite filter_cons_True by apply not_elem_of_nil. by rewrite IH.
Qed.

Lemma recipients_loop acc l :
  foldl recipientStep acc l
  = acc ++ filter (λ y, y ∉ acc) (keepFirst (omap extractEmailAddress l)).
Proof.
  revert acc. induction l as [|entry l IH]; intros acc; simpl.
  { by rewrite app_nil_r. }
  rewrite IH. unfold recipientStep. rewrite extractEmailAddress_default.
  destruct (extractEmailAddress entry) as [e|] eqn:E; [|done].
  rewrite (extractEmailAddress_truthy _ _ E). unfold includes. simpl.
  case_bool_decide as Hin; simpl.
  - rewrite filter_cons_False by (by intros ?).
    rewrite list_filter_filter. f_equal. apply list_filter_iff.
    intros y. split; [|by intros [? _]]. intros Hy. split; [done|]. by intros ->.
  - rewrite filter_cons_True by done. rewrite <- app_assoc. simpl. do 2 f_equal.
    rewrite list_filter_filter. apply list_filter_iff. intros y.
    rewrite elem_of_app, list_elem_of_singleton. tauto.
Qed.

Lemma getRecipients_keepFirst message :
  getRecipients message = keepFirst (omap extractEmailAddress (entries message)).
Proof.
  unfold getRecipients, entries. change (foldl _ [] ?l) with (foldl recipientStep [] l).
  rewrite recipients_loop. simpl. rewrite filter_notin_nil. by destruct (to message).
Qed.

Lemma getRecipients_normalized message e :
  e ∈ getRecipients message → extractEmailAddress (Some e) = Some e.
Proof.
  rewrite getRecipients_keepFirst, elem_of_keepFirst, list_elem_of_omap.
  by intros (entry & _ & [_ H]%extractEmailAddress_address).
Qed.

Lemma omap_truthy (l : list (option jsstring)) :
  omap extractEmailAddress (filter (λ entry, truthy entry = true) l)
  = omap extractEmailAddress l.
Proof.
  induction l as [|entry l IH]; [done|].
  destruct entry as [[|c v]|].
  - by rewrite filter_cons_False.
  - rewrite filter_cons_True by done. cbn [omap list_omap]. by rewrite IH.
  - by rewrite filter_cons_False.
Qed.

(** C6.  [getRecipients] returns the normalized addresses of the entries of
    [to] (one string, an array, or nothing), each once, in the order of their
    first occurrence; every one of them is a fixed point of
    [extractEmailAddress]; empty and absent entries contribute nothing. *)
Theorem getRecipients_unique_ordered message :
  getRecipients message = keepFirst (omap extractEmailAddress (entries message))
  ∧ NoDup (getRecipients message)
  ∧ (∀ e, e ∈ getRecipients message ↔
          ∃ entry, entry ∈ entries message ∧ extractEmailAddress entry = Some e)
  ∧ (∀ e, e ∈ getRecipients message → extractEmailAddress (Some e) = Some e)
  ∧ getRecipients message
    = keepFirst (omap extractEmailAddress
                   (filter (λ entry, truthy entry = true) (entries message))).
Proof.
  rewrite omap_truthy, getRecipients_keepFirst.
  split; [done|]. split; [apply NoDup_keepFirst|]. split; [|split; [|done]].
  - intros e. by rewrite elem_of_keepFirst, list_elem_of_omap.
  - intros e. rewrite <- getRecipients_keepFirst. apply getRecipients_normalized.
Qed.

End Recipients.

(** ** [getAccessKey] and the authorization gate *)

Section Auth.

Lemma lowerCodeUnit_ascii c d :
  (d < 128)%N → (d =? lowerCodeUnit c)%N = (d =? asciiLower c)%N.
Proof.
  intros Hd. unfold lowerCodeUnit, asciiLower.
  destruct (isUpper c); [done|].
  destruct (inRange 192 222 c && negb (c =? 215)%N) eqn:E; [|done].
  apply andb_true_iff in E as [E _]. unfold inRange in E.
  apply andb_true_iff in E as [E1 E2]. apply N.leb_le in E1, E2.
  rewrite (proj2 (N.eqb_neq _ _)), (proj2 (N.eqb_neq _ _)); [done|lia|lia].
Qed.

Lemma startsWith_lower s p :
  Forall (λ d, (d < 128)%N ∧ asciiLower d = d) p →
  startsWith (toLowerCase s) p = asciiCaseEq (take (length p) s) p.
Proof.
  unfold asciiCaseEq. revert s. induction p as [|d p IH]; intros s Hp.
  - done.
  - inversion Hp as [|? ? [Hd Hdl] Hp']; subst. destruct s as [|c s].
    + symmetry. by apply bool_decide_eq_false_2.
    + change (startsWith (toLowerCase (c :: s)) (d :: p))
        with ((d =? lowerCodeUnit c)%N && startsWith (toLowerCase s) p).
      rewrite IH by done. rewrite lowerCodeUnit_ascii by done.
      change (take (length (d :: p)) (c :: s)) with (c :: take (length p) s).
      rewrite !fmap_cons, Hdl.
      destruct (N.eqb_spec d (asciiLower c)) as [->|Hne].
      * apply bool_decide_ext. split; intros H; [by rewrite H | by injection H].
      * symmetry. apply bool_decide_eq_false_2. intros H. by injection H.
Qed.

Lemma asciiCaseEq_Bearer h :
  asciiCaseEq (take 7 h) (lit "Bearer ") = asciiCaseEq (take 7 h) (lit "bearer ").
Proof. done. Qed.

Lemma getAccessKey_spec request :
  getAccessKey request
  = default [] (bearerCredential (headersGet (requestHeaders request) (lit "authorization"))).
Proof.
  unfold getAccessKey, bearerCredential.
  destruct (headersGet _ _) as [h|]; [|done].
  cbv zeta. cbn [from_option]. unfold id, slice.
  rewrite asciiCaseEq_Bearer.
  rewrite (startsWith_lower h (lit "bearer ")).
  - change (length (lit "bearer ")) with 7%nat. by destruct (asciiCaseEq _ _).
  - repeat constructor.
Qed.

Lemma fetch_gate request env :
  authorized request env = negb (negb (truthy (ACCESS_KEY env))
                           || negb (bool_decide (Some (getAccessKey request) = ACCESS_KEY env))).
Proof.
  rewrite getAccessKey_spec. unfold authorized.
  destruct (ACCESS_KEY env) as [[|c key]|]; cbn [truthy negb orb]; [done| |done].
  rewrite negb_involutive. apply bool_decide_ext.
  destruct (bearerCredential _) as [cred|]; cbn [from_option]; unfold id;
    split; congruence.
Qed.

End Auth.

(** ** Stripping the leading slashes *)

Section Slashes.

Lemma dropWhile_app p pre post :
  allOf p pre → from_option p false (head post) = false →
  dropWhile p (pre ++ post) = post.
Proof.
  intros Hpre Hpost. induction Hpre as [|c pre Hc _ IH]; simpl.
  - destruct post as [|c post]; [done|]. simpl in *. by rewrite Hpost.
  - by rewrite Hc.
Qed.

Lemma takeWhile_app p pre post :
  allOf p pre → from_option p false (head post) = false →
  takeWhile p (pre ++ post) = pre.
Proof.
  intros Hpre Hpost. induction Hpre as [|c pre Hc _ IH]; simpl.
  - destruct post as [|c post]; [done|]. simpl in *. by rewrite Hpost.
  - by rewrite Hc, IH.
Qed.

Lemma scan_anchored sn rs : sn ≠ [] → scan LEADING_SLASHES sn rs = None.
Proof.
  revert sn. induction rs as [|c rs IH]; intros sn Hsn.
  - by destruct sn.
  - cbn [scan]. replace (matchAt LEADING_SLASHES sn (c :: rs)) with (@None Match)
      by (by destruct sn). by apply IH.
Qed.

Lemma slashes_matcher sn rs :
  matcher false (source LEADING_SLASHES) (mkState sn rs []) Some
  = match sn with
    | [] => repeatMatcher isSlash 1 None [] [] rs Some
    | _ :: _ => None
    end.
Proof.
  unfold LEADING_SLASHES. cbn [source matcher mkState seen]. destruct sn; [|done].
  apply repeatMatcher_ext; [|done]. intros c. by rewrite singleClass_spec by lia.
Qed.

Lemma replace_leading_slashes s :
  replace LEADING_SLASHES s [] = dropWhile isSlash s.
Proof.
  unfold replace, exec.
  destruct (matchAt LEADING_SLASHES [] s) as [m|] eqn:E.
  - rewrite (scan_first _ _ _ _ E). unfold matchAt in E.
    change (replicate (nGroups LEADING_SLASHES) None) with (@nil (option jsstring)) in E.
    change (ignoreCase LEADING_SLASHES) with false in E.
    change {| seen := []; rest := s; captures := [] |} with (mkState [] s []) in E.
    rewrite slashes_matcher in E.
    destruct (repeatMatcher _ _ _ _ _ _ _) as [st|] eqn:Er; [|done]. simplify_eq.
    apply repeatMatcher_Some in Er as (pre & post & -> & Hpre & Hmin & _ & Hk & Hmax);
      [|apply within_None].
    simplify_eq. cbn [index whole mkState seen]. simpl.
    rewrite app_nil_r, length_rev, Nat.sub_0_r, take_app_length, drop_app_length.
    symmetry. apply dropWhile_app; [done|].
    destruct post as [|c post]; [done|]. simpl.
    destruct (isSlash c) eqn:Ec; [|done]. exfalso.
    specialize (Hmax (pre ++ [c]) post). rewrite <- app_assoc in Hmax.
    specialize (Hmax eq_refl). discriminate Hmax.
    + apply Forall_app. split; [done|]. by constructor.
    + rewrite length_app. simpl. lia.
    + apply within_None.
  - assert (scan LEADING_SLASHES [] s = None) as ->.
    { destruct s as [|c s]; cbn [scan]; rewrite E; [done|]. by apply scan_anchored. }
    unfold matchAt in E.
    change (replicate (nGroups LEADING_SLASHES) None) with (@nil (option jsstring)) in E.
    change (ignoreCase LEADING_SLASHES) with false in E.
    change {| seen := []; rest := s; captures := [] |} with (mkState [] s []) in E.
    rewrite slashes_matcher in E.
    destruct (repeatMatcher _ _ _ _ _ _ _) as [st|] eqn:Er; [done|].
    destruct s as [|c s]; [done|]. simpl.
    destruct (isSlash c) eqn:Ec; [|done]. exfalso.
    eapply (repeatMatcher_None _ _ _ _ _ _ _ (within_None _)) with (pre := [c]) in Er;
      [done|reflexivity| |simpl; lia|apply within_None].
    by constructor.
Qed.

End Slashes.

(** ** [parseInt] and [normalizeTtlSeconds] *)

Section Ttl.

Lemma takeWhile_dropWhile p s : takeWhile p s ++ dropWhile p s = s.
Proof. induction s as [|c s IH]; simpl; [done|]. destruct (p c); simpl; congruence. Qed.

Lemma allOf_takeWhile p s : allOf p (takeWhile p s).
Proof.
  induction s as [|c s IH]; simpl; [constructor|].
  destruct (p c) eqn:E; by constructor.
Qed.

Lemma head_dropWhile p s : from_option p false (head (dropWhile p s)) = false.
Proof. induction s as [|c s IH]; simpl; [done|]. by destruct (p c) eqn:E. Qed.

Lemma digit_not_sign d :
  implb (isDigit d)
    (negb (isWhiteSpace d) && negb (d =? 43)%N && negb (d =? 45)%N) = true.
Proof.
  destruct (decide (d < 128)%N) as [Hlt|Hge].
  - revert d Hlt. apply (below_cases _ 128). vm_compute. reflexivity.
  - unfold isDigit. by rewrite inRange_above by lia.
Qed.

Lemma parseInt10_prefix s n : IntegerPrefix s n → parseInt10 s = toNumber n.
Proof.
  intros (ws & sgn & ds & tail & -> & Hws & Hsgn & Hne & Hds & Htail & ->).
  unfold parseInt10, trimStart.
  destruct ds as [|d ds]; [done|]. inversion Hds as [|? ? Hd Hds']; subst.
  assert (isWhiteSpace d = false ∧ (d =? 43)%N = false ∧ (d =? 45)%N = false)
    as (Hdw & Hd1 & Hd2).
  { pose proof (digit_not_sign d) as H. rewrite Hd in H. simpl in H.
    apply andb_true_iff in H as [[H1 H2]%andb_true_iff H3].
    by rewrite negb_true_iff in H1, H2, H3. }
  rewrite dropWhile_app; [|done|by destruct Hsgn as [->|[->| ->]]].
  destruct Hsgn as [->|[->| ->]]; cbn [app]; rewrite ?Hd1, ?Hd2; cbn [N.eqb orb Pos.eqb];
    change (d :: ds ++ tail) with ((d :: ds) ++ tail);
    rewrite (takeWhile_app isDigit (d :: ds) tail) by done; done.
Qed.

Lemma parseInt10_NaN s : (∀ n, ¬ IntegerPrefix s n) → parseInt10 s = NaN.
Proof.
  intros Hnone. unfold parseInt10.
  set (inputString := trimStart s).
  set (unsigned := match inputString with
                   | c :: s' => if (c =? 43)%N || (c =? 45)%N then s' else inputString
                   | [] => inputString
                   end).
  destruct (takeWhile isDigit unsigned) as [|d ds] eqn:Eds; [done|]. exfalso.
  assert (∃ sgn, inputString = sgn ++ unsigned ∧ (sgn = [] ∨ sgn = [43%N] ∨ sgn = [45%N]))
    as (sgn & Hin & Hsgn).
  { unfold unsigned. destruct inputString as [|c s']; [by exists []; auto|].
    destruct (N.eqb_spec c 43) as [->|]; [exists [43%N]; auto|].
    destruct (N.eqb_spec c 45) as [->|]; [exists [45%N]; auto|].
    exists []; auto. }
  apply (Hnone (signOf sgn * decimalValue (d :: ds))%Z).
  exists (takeWhile isWhiteSpace s), sgn, (d :: ds), (dropWhile isDigit unsigned).
  repeat split; auto.
  - rewrite <- Eds, takeWhile_dropWhile, <- Hin. unfold inputString, trimStart.
    by rewrite takeWhile_dropWhile.
  - apply allOf_takeWhile.
  - rewrite <- Eds. apply allOf_takeWhile.
  - apply head_dropWhile.
Qed.

Lemma toNumber_small n : (Z.abs n < 2 ^ 53)%Z → toNumber n = Finite n.
Proof. intros H. unfold toNumber. by rewrite (proj2 (Z.ltb_lt _ _) H). Qed.

Lemma toNumber_nonpositive n z : (n ≤ 0)%Z → toNumber n = Finite z → (z ≤ 0)%Z.
Proof.
  intros Hn. unfold toNumber.
  destruct (Z.abs n <? 2 ^ 53)%Z eqn:E; [by intros [= <-]|].
  apply Z.ltb_ge in E. cbv zeta.
  assert (0 ≤ Z.abs n / 2 ^ (Z.log2 (Z.abs n) - 52))%Z as Hq.
  { apply Z.div_pos; [lia|]. apply Z.pow_pos_nonneg; [lia|].
    assert (53 ≤ Z.log2 (Z.abs n))%Z; [|lia]. apply Z.log2_le_pow2; lia. }
  assert (0 ≤ 2 ^ (Z.log2 (Z.abs n) - 52))%Z as Hp by (apply Z.pow_nonneg; lia).
  revert Hq Hp. generalize (Z.abs n / 2 ^ (Z.log2 (Z.abs n) - 52))%Z as q.
  generalize (Z.abs n mod 2 ^ (Z.log2 (Z.abs n) - 52))%Z as r.
  generalize (2 ^ (Z.log2 (Z.abs n) - 52 - 1))%Z as h.
  generalize (2 ^ (Z.log2 (Z.abs n) - 52))%Z as p.
  intros p h r q Hq Hp.
  assert (Z.sgn n = -1)%Z as -> by (apply Z.sgn_neg; lia).
  destruct (_ || _); destruct (_ <=? _)%Z; try (by destruct (n <? 0)%Z);
    intros [= <-]; nia.
Qed.

(** C5, as the code has it.  The value read is the integer that starts
    the string, after white space and one sign; what follows its digits is
    ignored.  A positive one (below 2^53, where Numbers are exact) is
    returned, and the default 600 in every other case: no leading integer,
    zero, a negative value, an absent setting. *)
Theorem normalizeTtlSeconds_leading_integer :
  (∀ s n, IntegerPrefix s n → (0 < n < 2 ^ 53)%Z → normalizeTtlSeconds (Some s) = n)
  ∧ (∀ s n, IntegerPrefix s n → (n ≤ 0)%Z →
       normalizeTtlSeconds (Some s) = DEFAULT_TTL_SECONDS)
  ∧ (∀ s, (∀ n, ¬ IntegerPrefix s n) → normalizeTtlSeconds (Some s) = DEFAULT_TTL_SECONDS)
  ∧ normalizeTtlSeconds None = DEFAULT_TTL_SECONDS.
Proof.
  unfold normalizeTtlSeconds. cbn [from_option]. unfold id. repeat split.
  - intros s n Hp Hn. rewrite (parseInt10_prefix s n Hp), toNumber_small by lia.
    by rewrite (proj2 (Z.ltb_lt 0 n)) by lia.
  - intros s n Hp Hn. rewrite (parseInt10_prefix s n Hp).
    destruct (toNumber n) as [|z| |] eqn:E; try done.
    apply toNumber_nonpositive in E; [|done].
    by rewrite (proj2 (Z.ltb_ge 0 z)) by lia.
  - intros s Hnone. by rewrite parseInt10_NaN.
Qed.

(** C5 as stated fails: [5x] is not the representation of an integer, and
    the result is 5, not the default; 9007199254740993 is one, and the
    result is the Number next to it. *)
Lemma normalizeTtlSeconds_trailing_text :
  (∀ n, ¬ IsPositiveInteger (lit "5x") n)
  ∧ normalizeTtlSeconds (Some (lit "5x")) = 5%Z
  ∧ normalizeTtlSeconds (Some (lit "5x")) ≠ DEFAULT_TTL_SECONDS
  ∧ IsPositiveInteger (lit "9007199254740993") 9007199254740993
  ∧ normalizeTtlSeconds (Some (lit "9007199254740993")) = 9007199254740992%Z.
Proof.
  split; [|split; [reflexivity | split; [discriminate | split]]].
  - intros n (_ & Hd & _). inversion Hd as [|? ? _ Hd']. inversion Hd' as [|? ? Hx _].
    discriminate Hx.
  - repeat split; [done | repeat constructor].
  - vm_compute. reflexivity.
Qed.

End Ttl.

(** ** The lookup handler *)

Section Fetch.

Lemma routingToken_spec request :
  replace LEADING_SLASHES (pathname (url request)) [] = routingToken request.
Proof. apply replace_leading_slashes. Qed.

Lemma fetch_unfold request env :
  method request = lit "GET" →
  fetch request env
  = if authorized request env then
      match routingToken request with
      | [] => Returns (json (DomainsPayload (parseDomains (DOMAINS env))) 200)
      | _ :: _ =>
          decoded ← decodeURIComponent (routingToken request);
          match extractEmailAddress (Some decoded) with
          | Some address =>
              Returns (lookupResponse (KV.get (ANYMAIL_CODES env) (buildKey address)))
          | None => Returns (json (ErrorPayload (lit "invalid email")) 400)
          end
      end
    else Returns unauthorizedResponse.
Proof.
  intros Hm. unfold fetch. rewrite Hm, bool_decide_eq_true_2 by done. cbn [negb].
  rewrite (fetch_gate request env).
  destruct (_ || _); cbn [negb]; [done|].
  rewrite routingToken_spec. destruct (routingToken request) as [|c t]; [done|].
  destruct (decodeURIComponent (c :: t)) as [decoded|e]; [|done].
  cbn [mbind Outcome_bind].
  destruct (extractEmailAddress (Some decoded)) as [address|] eqn:E; [|done].
  rewrite (extractEmailAddress_truthy _ _ E). cbn [negb from_option]. unfold id.
  unfold lookupResponse. by destruct (KV.get _ _) as [[|c' code]|].
Qed.

(** C1.  A GET request is answered 401 unless its Authorization header
    carries a bearer credential equal to the configured access key, and is
    never answered 401 when it does; with the key absent or empty every GET
    request is answered 401. *)
Theorem fetch_unauthorized_unless_bearer request env :
  method request = lit "GET" →
  (authorized request env = false → fetch request env = Returns unauthorizedResponse)
  ∧ (authorized request env = true →
       ∀ response, fetch request env = Returns response → status response ≠ 401%Z)
  ∧ (ACCESS_KEY env = None ∨ ACCESS_KEY env = Some [] →
       fetch request env = Returns unauthorizedResponse).
Proof.
  intros Hm. rewrite (fetch_unfold _ _ Hm). split; [|split].
  - by intros ->.
  - intros -> response. destruct (routingToken request) as [|c t]; [by intros [= <-]|].
    destruct (decodeURIComponent (c :: t)) as [decoded|e]; [|done].
    cbn [mbind Outcome_bind].
    destruct (extractEmailAddress (Some decoded)); [|by intros [= <-]].
    unfold lookupResponse. by destruct (KV.get _ _) as [[|c' code]|]; intros [= <-].
  - intros H. replace (authorized request env) with false; [done|].
    unfold authorized. by destruct H as [-> | ->].
Qed.

Lemma fetch_unauthorized_unless_bearer_witness :
  fetch (getRequest "/user@test.com" (Some "Basic s3cret"%string)) scenarioEnv
  = Returns unauthorizedResponse.
Proof.
  apply (proj1 (fetch_unauthorized_unless_bearer
                  (getRequest "/user@test.com" (Some "Basic s3cret"%string))
                  scenarioEnv eq_refl)).
  vm_compute. reflexivity.
Defined.

Lemma fetch_lookup request env decoded address :
  method request = lit "GET" → authorized request env = true →
  routingToken request ≠ [] →
  decodeURIComponent (routingToken request) = Returns decoded →
  extractEmailAddress (Some decoded) = Some address →
  fetch request env
  = Returns (lookupResponse (KV.get (ANYMAIL_CODES env) (buildKey address))).
Proof.
  intros Hm Ha Ht Hd He. rewrite (fetch_unfold _ _ Hm), Ha.
  destruct (routingToken request) as [|c t]; [done|]. rewrite Hd.
  cbn [mbind Outcome_bind]. by rewrite He.
Qed.

Lemma fetch_invalid_email request env decoded :
  method request = lit "GET" → authorized request env = true →
  routingToken request ≠ [] →
  decodeURIComponent (routingToken request) = Returns decoded →
  extractEmailAddress (Some decoded) = None →
  fetch request env = Returns (json (ErrorPayload (lit "invalid email")) 400).
Proof.
  intros Hm Ha Ht Hd He. rewrite (fetch_unfold _ _ Hm), Ha.
  destruct (routingToken request) as [|c t]; [done|]. rewrite Hd.
  cbn [mbind Outcome_bind]. by rewrite He.
Qed.

Lemma fetch_decode_throws request env e :
  method request = lit "GET" → authorized request env = true →
  decodeURIComponent (routingToken request) = Throws e →
  fetch request env = Throws e.
Proof.
  intros Hm Ha Hd. rewrite (fetch_unfold _ _ Hm), Ha.
  destruct (routingToken request) as [|c t]; [done|]. by rewrite Hd.
Qed.

(** C3.  The authorized request [GET /%] has the non-empty routing token
    [%], which decodes to no address; the handler throws [URIError] where a
    400 response is expected. *)
Theorem fetch_malformed_escape_throws :
  let request := getRequest "/%" (Some "Bearer s3cret"%string) in
  method request = lit "GET" ∧ authorized request scenarioEnv = true
  ∧ routingToken request = lit "%"
  ∧ fetch request scenarioEnv = Throws URIError.
Proof. vm_compute. repeat split; reflexivity. Qed.

Lemma authorized_withStore request env ns :
  authorized request (withStore env ns) = authorized request env.
Proof. done. Qed.

(** C10.  When the store holds the empty string for the requested address,
    the lookup answers 404 with an empty code, as it does once the record is
    removed. *)
Theorem fetch_empty_code_is_not_found request env decoded address :
  method request = lit "GET" → authorized request env = true →
  routingToken request ≠ [] →
  decodeURIComponent (routingToken request) = Returns decoded →
  extractEmailAddress (Some decoded) = Some address →
  KV.get (ANYMAIL_CODES env) (buildKey address) = Some [] →
  fetch request env = Returns (json (CodePayload []) 404)
  ∧ fetch request (withStore env (removeRecord (ANYMAIL_CODES env) (buildKey address)))
    = fetch request env.
Proof.
  intros Hm Ha Ht Hd He Hget.
  rewrite (fetch_lookup _ env _ _ Hm Ha Ht Hd He), Hget.
  rewrite (fetch_lookup _ (withStore env _) _ _ Hm Ha Ht Hd He). split; [done|].
  cbn [withStore ANYMAIL_CODES]. unfold KV.get, removeRecord. cbn [KV.entries].
  by rewrite lookup_delete_eq.
Qed.

Lemma fetch_empty_code_is_not_found_witness :
  fetch (getRequest "/user@test.com" (Some "Bearer s3cret"%string)) emptyCodeEnv
  = Returns (json (CodePayload []) 404).
Proof.
  apply (proj1 (fetch_empty_code_is_not_found
                  (getRequest "/user@test.com" (Some "Bearer s3cret"%string))
                  emptyCodeEnv (lit "user@test.com") (lit "user@test.com")
                  eq_refl eq_refl ltac:(discriminate) eq_refl eq_refl eq_refl)).
Defined.

End Fetch.

(** ** The inbound handler *)

Section Email.

Lemma readRawText_bodyText message : readRawText message = Returns (bodyText message).
Proof. unfold readRawText, bodyText. by destruct (raw message) as [[text|e]|]. Qed.

(** C9.  [readRawText] returns the text the body stream delivers; when the
    message has no stream, or reading it fails, it returns the empty string.
    In no case does it throw. *)
Theorem readRawText_absorbs_failures message :
  readRawText message = Returns (bodyText message)
  ∧ (raw message = None → readRawText message = Returns [])
  ∧ (∀ e, raw message = Some (Breaks e) → readRawText message = Returns [])
  ∧ (∀ text, raw message = Some (Delivers text) → readRawText message = Returns text)
  ∧ (∀ e, readRawText message ≠ Throws e).
Proof.
  unfold readRawText, bodyText. destruct (raw message) as [[text|e]|]; simpl;
    repeat split; try done; congruence.
Qed.

Lemma extractCode_truthy text code : extractCode text = Some code → truthy (Some code) = true.
Proof.
  intros (l & r & _ & Ht%IsCodeToken_nonempty & _)%extractCode_Some. by destruct code.
Qed.

Lemma email_unfold message env :
  email message env
  = Returns match extractCode (subjectOf message ++ [10%N] ++ bodyText message) with
            | Some code =>
                writeFor code (normalizeTtlSeconds (CODE_TTL_SECONDS env))
                  <$> getRecipients message
            | None => []
            end.
Proof.
  unfold email. rewrite readRawText_bodyText.
  cbn [mbind Outcome_bind]. fold (subjectOf message).
  case_bool_decide as Hlen.
  - apply length_zero_iff_nil in Hlen. rewrite Hlen. by destruct (extractCode _).
  - destruct (extractCode _) as [code|] eqn:E; [|done].
    by rewrite (extractCode_truthy _ _ E).
Qed.

(** C7.  Without recipients, or without a code in the subject, a newline
    and the body, the inbound handler requests no write; otherwise it
    requests one write [(buildKey recipient, code, ttl)] per recipient.  It
    never throws. *)
Theorem email_discards_or_writes message env :
  let text := subjectOf message ++ [10%N] ++ bodyText message in
  (getRecipients message = [] → email message env = Returns [])
  ∧ (extractCode text = None → email message env = Returns [])
  ∧ (∀ code, extractCode text = Some code →
       email message env
       = Returns (writeFor code (normalizeTtlSeconds (CODE_TTL_SECONDS env))
                    <$> getRecipients message))
  ∧ (∀ e, email message env ≠ Throws e).
Proof.
  intros text. rewrite email_unfold. fold text. repeat split.
  - intros ->. by destruct (extractCode text).
  - by intros ->.
  - by intros code ->.
  - done.
Qed.

End Email.

(** ** From the inbound handler to the lookup *)

Section RoundTrip.

Lemma perform_clock ns tasks : KV.clock (KV.perform ns tasks) = KV.clock ns.
Proof.
  revert ns. induction tasks as [|t tasks IH]; intros ns; [done|].
  unfold KV.perform in *. simpl. by rewrite IH.
Qed.

Lemma buildKey_inj a b : buildKey a = buildKey b → a = b.
Proof. unfold buildKey. apply app_inv_head. Qed.

Lemma perform_lookup ns code ttl recipients address :
  address ∈ recipients →
  KV.entries (KV.perform ns (writeFor code ttl <$> recipients)) !! buildKey address
  = Some {| KV.value := code; KV.expiration := KV.clock ns + ttl |}.
Proof.
  induction recipients as [|r recipients IH] using rev_ind; intros Hin.
  { by apply elem_of_nil in Hin. }
  rewrite fmap_app. unfold KV.perform. rewrite foldl_app. simpl.
  fold (KV.perform ns (writeFor code ttl <$> recipients)). rewrite perform_clock.
  destruct (decide (r = address)) as [->|Hne].
  - by rewrite lookup_insert_eq.
  - rewrite lookup_insert_ne by (intros H%buildKey_inj; done).
    apply IH. apply elem_of_app in Hin as [|Hin]; [done|].
    apply list_elem_of_singleton in Hin. congruence.
Qed.

(** C2.  A code the inbound handler writes under [buildKey address] is the
    code an authorized GET request returns, with status 200, when its routing
    token decodes to [address] and less than the TTL has elapsed. *)
Theorem stored_code_is_returned message env tasks request address code dt :
  email message env = Returns tasks →
  writeFor code (normalizeTtlSeconds (CODE_TTL_SECONDS env)) address ∈ tasks →
  (0 ≤ dt < normalizeTtlSeconds (CODE_TTL_SECONDS env))%Z →
  method request = lit "GET" → authorized request env = true →
  decodeURIComponent (routingToken request) = Returns address →
  extractEmailAddress (Some address) = Some address
  ∧ fetch request
      (withStore env (KV.elapse dt (KV.perform (ANYMAIL_CODES env) tasks)))
    = Returns (json (CodePayload code) 200).
Proof.
  intros Hemail Hin Hdt Hm Ha Hd. rewrite email_unfold in Hemail.
  destruct (extractCode _) as [code'|] eqn:E; simplify_eq; [|by apply elem_of_nil in Hin].
  apply list_elem_of_fmap in Hin as (r & Heq & Hr).
  injection Heq as Hkey Hcode. subst r code'.
  pose proof (getRecipients_normalized _ _ Hr) as Hnorm.
  split; [done|].
  assert (routingToken request ≠ []) as Ht.
  { intros Hnil. rewrite Hnil in Hd. injection Hd as <-. done. }
  rewrite (fetch_lookup request (withStore env _) address address Hm Ha Ht Hd Hnorm).
  cbn [withStore ANYMAIL_CODES]. unfold KV.get, KV.elapse. cbn [KV.entries KV.clock].
  rewrite (perform_lookup _ _ _ _ _ Hr), perform_clock. cbn [KV.expiration KV.value].
  rewrite (proj2 (Z.ltb_lt _ _)) by lia.
  pose proof (extractCode_truthy _ _ E). by destruct code.
Qed.

Lemma stored_code_is_returned_witness :
  extractEmailAddress (Some (lit "user@test.com")) = Some (lit "user@test.com")
  ∧ fetch (getRequest "//user%40test.com" (Some "bearer s3cret"%string))
      (withStore scenarioEnv
         (KV.elapse 119
            (KV.perform (ANYMAIL_CODES scenarioEnv)
               [writeFor (lit "73920") 120 (lit "user@test.com")])))
    = Returns (json (CodePayload (lit "73920")) 200).
Proof.
  apply (stored_code_is_returned scenarioMessage scenarioEnv
           [writeFor (lit "73920") 120 (lit "user@test.com")]
           (getRequest "//user%40test.com" (Some "bearer s3cret"%string))
           (lit "user@test.com") (lit "73920") 119).
  - vm_compute. reflexivity.
  - apply list_elem_of_here.
  - vm_compute. split; [discriminate | reflexivity].
  - reflexivity.
  - vm_compute. reflexivity.
  - vm_compute. reflexivity.
Defined.

End RoundTrip.

(** ** [trim] *)

Section Trim.

Lemma dropWhile_id p s : from_option p false (head s) = false → dropWhile p s = s.
Proof. destruct s as [|c s]; [done|]. simpl. by intros ->. Qed.

Lemma trimEnd_split s :
  ∃ suf, s = trimEnd s ++ suf ∧ allOf isWhiteSpace suf
         ∧ from_option isWhiteSpace false (last (trimEnd s)) = false.
Proof.
  unfold trimEnd. exists (rev (takeWhile isWhiteSpace (rev s))). repeat split.
  - rewrite <- rev_app_distr, takeWhile_dropWhile. by rewrite rev_involutive.
  - unfold allOf. rewrite Forall_forall. intros c Hc.
    apply list_elem_of_In, in_rev, list_elem_of_In in Hc.
    pose proof (allOf_takeWhile isWhiteSpace (rev s)) as H.
    unfold allOf in H. rewrite Forall_forall in H. by apply H.
  - rewrite last_rev. apply head_dropWhile.
Qed.

Lemma trim_split s :
  ∃ pre suf, s = pre ++ trim s ++ suf ∧ allOf isWhiteSpace pre ∧ allOf isWhiteSpace suf
             ∧ isTrimmed (trim s).
Proof.
  unfold trim. destruct (trimEnd_split (trimStart s)) as (suf & Heq & Hsuf & Hlast).
  exists (takeWhile isWhiteSpace s), suf. repeat split; auto.
  - rewrite <- Heq. unfold trimStart. by rewrite takeWhile_dropWhile.
  - apply allOf_takeWhile.
  - pose proof (head_dropWhile isWhiteSpace s) as Hhead. fold (trimStart s) in Hhead.
    rewrite Heq in Hhead. by destruct (trimEnd (trimStart s)).
Qed.

Lemma trim_trimmed s : isTrimmed s → trim s = s.
Proof.
  intros [Hh Hl]. unfold trim, trimStart, trimEnd.
  rewrite (dropWhile_id _ s Hh), dropWhile_id; [apply rev_involutive|].
  by rewrite <- last_rev, rev_involutive.
Qed.

Lemma trim_idemp s : trim (trim s) = trim s.
Proof. destruct (trim_split s) as (? & ? & _ & _ & _ & H). by apply trim_trimmed. Qed.

Lemma trim_elem s c : c ∈ trim s → c ∈ s.
Proof.
  destruct (trim_split s) as (pre & suf & Heq & _). intros Hc. rewrite Heq.
  rewrite !elem_of_app. auto.
Qed.

End Trim.



(** ** The credential and the configured key *)

Section AccessKey.

Lemma isTrimmed_nil : isTrimmed [].
Proof. done. Qed.

Lemma getAccessKey_isTrimmed request : isTrimmed (getAccessKey request).
Proof.
  unfold getAccessKey. destruct (startsWith _ _); [|apply isTrimmed_nil].
  by destruct (trim_split (slice 7 (default [] (headersGet (requestHeaders request)
                                                  (lit "authorization")))))
    as (? & ? & _ & _ & _ & H).
Qed.

(** X1.  The credential [getAccessKey] returns has no white space at either
    end, whatever the header; it is the empty string when the request has
    no Authorization header and when the header is only the scheme. *)
Theorem getAccessKey_trimmed request :
  isTrimmed (getAccessKey request)
  ∧ (headersGet (requestHeaders request) (lit "authorization") = None →
     getAccessKey request = [])
  ∧ (∀ ws, headersGet (requestHeaders request) (lit "authorization")
           = Some (lit "Bearer " ++ ws) →
           allOf isWhiteSpace ws → getAccessKey request = []).
Proof.
  split; [apply getAccessKey_isTrimmed|]. split.
  - unfold getAccessKey. by intros ->.
  - intros ws Hh Hws. rewrite getAccessKey_spec, Hh. unfold bearerCredential.
    change (take 7 (lit "Bearer " ++ ws)) with (lit "Bearer ").
    change (drop 7 (lit "Bearer " ++ ws)) with ws.
    replace (asciiCaseEq (lit "Bearer ") (lit "Bearer ")) with true by done.
    cbn [from_option]. unfold id, trim, trimStart.
    rewrite <- (app_nil_r ws), dropWhile_app by done. done.
Qed.

(** X2.  A configured access key that starts or ends with white space
    matches no request: every GET request is answered 401. *)
Theorem fetch_untrimmed_key_locks_out request env key :
  method request = lit "GET" → ACCESS_KEY env = Some key → ¬ isTrimmed key →
  fetch request env = Returns unauthorizedResponse.
Proof.
  intros Hm Hkey Hn. rewrite (fetch_unfold _ _ Hm).
  replace (authorized request env) with false; [done|]. symmetry.
  rewrite fetch_gate, <- negb_true_iff, negb_involutive. apply orb_true_iff. right.
  apply negb_true_iff, bool_decide_eq_false_2. rewrite Hkey. intros [= <-].
  apply Hn, getAccessKey_isTrimmed.
Qed.

Lemma fetch_untrimmed_key_locks_out_witness :
  fetch (getRequest "/" (Some "Bearer  s3cret "%string))
    {| ACCESS_KEY := Some (lit " s3cret"); CODE_TTL_SECONDS := None; DOMAINS := None;
       ANYMAIL_CODES := ANYMAIL_CODES scenarioEnv |}
  = Returns unauthorizedResponse.
Proof.
  apply (fetch_untrimmed_key_locks_out
           (getRequest "/" (Some "Bearer  s3cret "%string))
           {| ACCESS_KEY := Some (lit " s3cret"); CODE_TTL_SECONDS := None; DOMAINS := None;
              ANYMAIL_CODES := ANYMAIL_CODES scenarioEnv |}
           (lit " s3cret") eq_refl eq_refl).
  intros [H _]. discriminate H.
Defined.

End AccessKey.

(** ** [parseDomains] *)

Section Domains.

Lemma split_nonempty sep s : split sep s ≠ [].
Proof.
  induction s as [|c s IH]; simpl; [done|].
  destruct (c =? sep)%N; [done|]. by destruct (split sep s).
Qed.

Lemma split_no_sep sep s w : w ∈ split sep s → sep ∉ w.
Proof.
  revert w. induction s as [|c s IH]; intros w; simpl.
  - intros ->%list_elem_of_singleton. apply not_elem_of_nil.
  - destruct (N.eqb_spec c sep) as [->|Hne].
    + intros [->|Hw]%elem_of_cons; [apply not_elem_of_nil | by apply IH].
    + destruct (split sep s) as [|w0 ws] eqn:E; [by apply split_nonempty in E|].
      intros [->|Hw]%elem_of_cons.
      * intros [?|Hin]%elem_of_cons; [congruence|]. revert Hin. apply IH. by left.
      * apply IH. by right.
Qed.




Lemma lower_isWhiteSpace c : isWhiteSpace (lowerCodeUnit c) = isWhiteSpace c.
Proof.
  destruct (decide (c < 256)%N) as [Hlt|Hge].
  - apply eqb_prop. revert c Hlt. apply (below_cases _ 256). vm_compute. reflexivity.
  - by rewrite lowerCodeUnit_above by lia.
Qed.

Lemma lower_not_upper c : isUpper (lowerCodeUnit c) = false.
Proof.
  destruct (decide (c < 256)%N) as [Hlt|Hge].
  - apply negb_true_iff. revert c Hlt. apply (below_cases _ 256). vm_compute. reflexivity.
  - rewrite lowerCodeUnit_above by lia. unfold isUpper. by rewrite inRange_above by lia.
Qed.

Lemma lower_comma c : lowerCodeUnit c = 44%N → c = 44%N.
Proof.
  destruct (decide (c < 256)%N) as [Hlt|Hge].
  - intros H. apply N.eqb_eq.
    enough (implb (lowerCodeUnit c =? 44)%N (c =? 44)%N = true) as Hi
      by (by rewrite (proj2 (N.eqb_eq _ _) H) in Hi).
    clear H. revert c Hlt. apply (below_cases _ 256). vm_compute. reflexivity.
  - rewrite lowerCodeUnit_above by lia. done.
Qed.

Lemma isTrimmed_toLowerCase s : isTrimmed s → isTrimmed (toLowerCase s).
Proof.
  unfold isTrimmed, toLowerCase. intros [Hh Hl]. split.
  - destruct s as [|c s]; [done|]. simpl in *. by rewrite lower_isWhiteSpace.
  - rewrite fmap_last. destruct (last s) as [c|]; [|done]. simpl in *.
    by rewrite lower_isWhiteSpace.
Qed.

Lemma parseDomains_unfold v :
  v ≠ [] →
  parseDomains (Some v)
  = filter (λ domain, (0 < length domain)%nat)
      ((λ domain, toLowerCase (trim domain)) <$> split 44 v).
Proof. by destruct v. Qed.

(** X3.  [parseDomains] yields nothing for an absent or empty setting;
    every domain it yields is non-empty, has no white space at either end,
    no comma and no upper-case ASCII letter. *)
Theorem parseDomains_normalized value :
  (value = None ∨ value = Some [] → parseDomains value = [])
  ∧ ∀ d, d ∈ parseDomains value →
      d ≠ [] ∧ isTrimmed d ∧ (44%N ∉ d) ∧ allOf (λ c, negb (isUpper c)) d.
Proof.
  split; [by intros [-> | ->]|]. intros d.
  destruct value as [[|c v]|]; [by intros ?%elem_of_nil| |by intros ?%elem_of_nil].
  rewrite parseDomains_unfold by done.
  rewrite list_elem_of_filter, list_elem_of_fmap.
  intros [Hlen (w & -> & Hw)]. repeat split.
  - intros H. rewrite H in Hlen. simpl in Hlen. lia.
  - apply isTrimmed_toLowerCase. by destruct (trim_split w) as (? & ? & _ & _ & _ & H).
  - apply isTrimmed_toLowerCase. by destruct (trim_split w) as (? & ? & _ & _ & _ & H).
  - unfold toLowerCase. rewrite list_elem_of_fmap. intros (x & Hx%eq_sym%lower_comma & Hin).
    subst x. apply trim_elem in Hin. by apply split_no_sep in Hw.
  - unfold allOf, toLowerCase. apply Forall_fmap, Forall_forall. intros x _. simpl.
    by rewrite lower_not_upper.
Qed.




End Domains.



(** ** The text the inbound handler searches *)

Section CodeCompose.

(** The leftmost token decides the result. *)
Lemma extractCode_intro s l d r :
  s = l ++ d ++ r → IsCodeToken l d r →
  (∀ l' d' r', s = l' ++ d' ++ r' → IsCodeToken l' d' r' → (length l ≤ length l')%nat) →
  extractCode s = Some d.
Proof.
  intros Heq Ht Hleft. destruct (extractCode s) as [d0|] eqn:E.
  - apply extractCode_Some in E as (l0 & r0 & Heq0 & Ht0 & Hleft0).
    destruct (Hleft0 l d r Heq Ht) as [Hle Hsame].
    specialize (Hleft l0 d0 r0 Heq0 Ht0). f_equal. symmetry. apply Hsame. lia.
  - by eapply extractCode_None in E.
Qed.

Lemma extractCode_absent s :
  (∀ l d r, s = l ++ d ++ r → ¬ IsCodeToken l d r) → extractCode s = None.
Proof.
  intros Hnone. destruct (extractCode s) as [d|] eqn:E; [|done].
  apply extractCode_Some in E as (l & r & Heq & Ht & _). by destruct (Hnone l d r).
Qed.

Lemma prefix_before x (d r s b : jsstring) :
  d ++ r = s ++ x :: b → x ∉ d → ∃ r1, s = d ++ r1 ∧ r = r1 ++ x :: b.
Proof.
  revert s. induction d as [|c d IH]; intros s Heq Hx.
  - exists s. by simpl in Heq.
  - destruct s as [|c' s]; simpl in Heq; injection Heq as -> Heq.
    + exfalso. apply Hx. by left.
    + destruct (IH s Heq) as (r1 & -> & ->); [intros ?; apply Hx; by right|].
      by exists r1.
Qed.

(** A separator that occurs in no token keeps every token on one side. *)
Lemma split_around x (l d r s b : jsstring) :
  l ++ d ++ r = s ++ x :: b → x ∉ d →
  (∃ r1, s = l ++ d ++ r1 ∧ r = r1 ++ x :: b)
  ∨ (∃ l1, l = s ++ x :: l1 ∧ b = l1 ++ d ++ r).
Proof.
  revert s. induction l as [|c l IH]; intros s Heq Hx.
  - left. by apply prefix_before.
  - destruct s as [|c' s]; simpl in Heq; injection Heq as -> Heq.
    + right. by exists l.
    + destruct (IH s Heq Hx) as [(r1 & -> & ->)|(l1 & -> & ->)].
      * left. by exists r1.
      * right. by exists l1.
Qed.

Lemma digits_no_newline d : allOf isDigit d → 10%N ∉ d.
Proof.
  unfold allOf. rewrite Forall_forall. intros H Hin. by apply H in Hin.
Qed.

Lemma wordBoundary_before_newline before r1 b :
  wordBoundary before (r1 ++ 10%N :: b) = wordBoundary before r1.
Proof. unfold wordBoundary. by destruct r1. Qed.

Lemma wordBoundary_after_newline s l1 after :
  wordBoundary (s ++ 10%N :: l1) after = wordBoundary l1 after.
Proof.
  unfold wordBoundary. f_equal. rewrite last_app. simpl.
  destruct l1 as [|c l1] using rev_ind; [done|]. by rewrite last_cons, !last_snoc.
Qed.

Lemma IsCodeToken_left l d r1 b :
  IsCodeToken l d (r1 ++ 10%N :: b) ↔ IsCodeToken l d r1.
Proof.
  unfold IsCodeToken. rewrite wordBoundary_before_newline.
  assert (wordBoundary l (d ++ r1 ++ 10%N :: b) = wordBoundary l (d ++ r1)) as ->; [|done].
  rewrite app_assoc. apply wordBoundary_before_newline.
Qed.

Lemma IsCodeToken_right s l1 d r :
  IsCodeToken (s ++ 10%N :: l1) d r ↔ IsCodeToken l1 d r.
Proof.
  unfold IsCodeToken. rewrite wordBoundary_after_newline.
  assert (wordBoundary ((s ++ 10%N :: l1) ++ d) r = wordBoundary (l1 ++ d) r) as ->; [|done].
  rewrite <- app_assoc. apply (wordBoundary_after_newline s (l1 ++ d)).
Qed.

(** X5.  In the text the inbound handler searches, the subject comes
    first: its code wins, the body is searched only when the subject holds
    none, and no code straddles the newline between the two. *)
Theorem extractCode_subject_first subject body :
  extractCode (subject ++ [10%N] ++ body)
  = match extractCode subject with
    | Some code => Some code
    | None => extractCode body
    end.
Proof.
  destruct (extractCode subject) as [c|] eqn:Es.
  - apply extractCode_Some in Es as (l & r1 & -> & Ht & Hleft).
    apply (extractCode_intro _ l c (r1 ++ [10%N] ++ body)).
    + by rewrite <- !app_assoc.
    + by apply (proj2 (IsCodeToken_left _ _ _ _)).
    + intros l' d' r' Heq Ht'. rewrite <- !app_assoc in Heq.
      change (l ++ c ++ r1 ++ [10%N] ++ body) with (l ++ c ++ r1 ++ 10%N :: body) in Heq.
      rewrite !app_assoc, <- (app_assoc l' d' r') in Heq. symmetry in Heq.
      apply split_around in Heq as [(r1' & Hs & ->)|(l1 & -> & _)];
        [| |apply digits_no_newline, Ht'].
      * rewrite <- app_assoc in Hs. apply (proj1 (IsCodeToken_left _ _ _ _)) in Ht'.
        by destruct (Hleft l' d' r1' Hs Ht').
      * rewrite !length_app. lia.
  - destruct (extractCode body) as [c|] eqn:Eb.
    + apply extractCode_Some in Eb as (l1 & r & -> & Ht & Hleft).
      apply (extractCode_intro _ (subject ++ 10%N :: l1) c r).
      * by rewrite <- !app_assoc.
      * by apply (proj2 (IsCodeToken_right _ _ _ _)).
      * intros l' d' r' Heq Ht'. symmetry in Heq.
        change (subject ++ [10%N] ++ l1 ++ c ++ r) with (subject ++ 10%N :: l1 ++ c ++ r) in Heq.
        apply split_around in Heq as [(r1' & Hs & ->)|(l1' & -> & Hb)];
          [| |apply digits_no_newline, Ht'].
        -- apply (proj1 (IsCodeToken_left _ _ _ _)) in Ht'. by eapply extractCode_None in Es.
        -- apply (proj1 (IsCodeToken_right _ _ _ _)) in Ht'. destruct (Hleft l1' d' r' Hb Ht') as [Hle _].
           rewrite !length_app. simpl. lia.
    + apply extractCode_absent. intros l d r Heq Ht. symmetry in Heq.
      change (subject ++ [10%N] ++ body) with (subject ++ 10%N :: body) in Heq.
      apply split_around in Heq as [(r1' & Hs & ->)|(l1' & -> & Hb)];
        [| |apply digits_no_newline, Ht].
      * apply (proj1 (IsCodeToken_left _ _ _ _)) in Ht. by eapply extractCode_None in Es.
      * apply (proj1 (IsCodeToken_right _ _ _ _)) in Ht. by eapply extractCode_None in Eb.
Qed.

End CodeCompose.



(** ** Case and [extractEmailAddress] *)

Section CaseInsensitive.












End CaseInsensitive.


(** ** The shape of an address *)

Section Shape.

Lemma class_ascii (p : N → bool) c :
  (∀ c, (127 < c)%N → p c = false) → p c = true → isAscii c = true.
Proof.
  intros Habove Hp. unfold isAscii. apply N.ltb_lt.
  destruct (decide (c < 128)%N) as [|Hge]; [done|]. rewrite Habove in Hp by lia. done.
Qed.

Lemma isLocalChar_above c : (127 < c)%N → isLocalChar c = false.
Proof. intros. unfold isLocalChar, isLetter, isUpper, isLower, isDigit. above_ascii. Qed.

Lemma isDomainChar_above c : (127 < c)%N → isDomainChar c = false.
Proof. intros. unfold isDomainChar, isLetter, isUpper, isLower, isDigit. above_ascii. Qed.

Lemma isLetter_above c : (127 < c)%N → isLetter c = false.
Proof. intros. unfold isLetter, isUpper, isLower. above_ascii. Qed.

Lemma allOf_impl (p q : N → bool) s :
  (∀ c, p c = true → q c = true) → allOf p s → allOf q s.
Proof. intros H Hs. eapply Forall_impl; [exact Hs|exact H]. Qed.

Lemma countOf_app x s t : countOf x (s ++ t) = (countOf x s + countOf x t)%nat.
Proof. unfold countOf. by rewrite filter_app, length_app. Qed.

Lemma countOf_none (p : N → bool) x s : p x = false → allOf p s → countOf x s = 0%nat.
Proof.
  intros Hx Hs. unfold countOf. induction Hs as [|c s Hc _ IH]; [done|].
  rewrite filter_cons_False by congruence. done.
Qed.

Lemma IsAddress_ascii a : IsAddress a → allOf isAscii a.
Proof.
  intros (L & D & T & -> & _ & HL & _ & HD & _ & HT).
  unfold allOf. rewrite !Forall_app. repeat split.
  - apply (allOf_impl isLocalChar); [|done]. intros c. apply class_ascii, isLocalChar_above.
  - by repeat constructor.
  - apply (allOf_impl isDomainChar); [|done]. intros c. apply class_ascii, isDomainChar_above.
  - by repeat constructor.
  - apply (allOf_impl isLetter); [|done]. intros c. apply class_ascii, isLetter_above.
Qed.

Lemma IsAddress_one_at a : IsAddress a → countOf 64 a = 1%nat.
Proof.
  intros (L & D & T & -> & _ & HL & _ & HD & _ & HT).
  rewrite !countOf_app.
  rewrite (countOf_none isLocalChar 64 L eq_refl HL).
  rewrite (countOf_none isDomainChar 64 D eq_refl HD).
  rewrite (countOf_none isLetter 64 T eq_refl HT). reflexivity.
Qed.

(** X7.  An address [extractEmailAddress] returns has the address shape,
    is its own lower-casing, consists of ASCII code units, none an upper-case
    letter, and holds exactly one [@]. *)
Theorem extractEmailAddress_shape x a :
  extractEmailAddress x = Some a →
  IsAddress a ∧ toLowerCase a = a ∧ allOf isAscii a
  ∧ allOf (λ c, negb (isUpper c)) a ∧ countOf 64 a = 1%nat.
Proof.
  intros H. pose proof (extractEmailAddress_address _ _ H) as [Ha _].
  apply extractEmailAddress_Some_inv in H as (v & m & -> & _ & ->).
  repeat split; auto using IsAddress_ascii, IsAddress_one_at, toLowerCase_idemp.
  unfold allOf, toLowerCase. apply Forall_fmap, Forall_forall. intros c _. simpl.
  by rewrite lower_not_upper.
Qed.

Lemma extractEmailAddress_shape_witness :
  let a := lit "john@example.com" in
  IsAddress a ∧ toLowerCase a = a ∧ allOf isAscii a
  ∧ allOf (λ c, negb (isUpper c)) a ∧ countOf 64 a = 1%nat.
Proof.
  apply (extractEmailAddress_shape (Some (lit "Mail John@Example.COM now"))).
  vm_compute. reflexivity.
Defined.

End Shape.

(** ** More on [getRecipients] *)

Section RecipientsMore.

Lemma filter_ne_notin (x : jsstring) (l : list jsstring) : x ∉ l → filter (λ y, y ≠ x) l = l.
Proof.
  induction l as [|y l IH]; [done|]. intros Hx.
  rewrite filter_cons_True by (intros ->; apply Hx; by left).
  f_equal. apply IH. intros ?. apply Hx. by right.
Qed.

Lemma keepFirst_NoDup l : NoDup l → keepFirst l = l.
Proof.
  induction 1 as [|x l Hx _ IH]; [done|]. simpl. rewrite IH. f_equal.
  by apply filter_ne_notin.
Qed.

Lemma omap_normalized (l : list jsstring) :
  (∀ e, e ∈ l → extractEmailAddress (Some e) = Some e) →
  omap extractEmailAddress (Some <$> l) = l.
Proof.
  induction l as [|e l IH]; [done|]. intros H. rewrite fmap_cons. cbn [omap list_omap].
  rewrite (H e) by (by left). f_equal. apply IH. intros x Hx. apply H. by right.
Qed.

Lemma length_keepFirst (l : list jsstring) : (length (keepFirst l) ≤ length l)%nat.
Proof.
  induction l as [|x l IH]; simpl; [done|].
  pose proof (length_filter (λ y, y ≠ x) (keepFirst l)). lia.
Qed.

Lemma length_omap_le {A B} (f : A → option B) (l : list A) : (length (omap f l) ≤ length l)%nat.
Proof.
  induction l as [|x l IH]; [done|]. cbn [omap list_omap].
  destruct (f x); cbn [length]; fold (omap f l); lia.
Qed.

(** X8.  The recipients of a message, given again as its [to] list, come
    back unchanged; there are no more recipients than entries. *)
Theorem getRecipients_normal_form message :
  getRecipients (messageTo (ToMany (Some <$> getRecipients message))) = getRecipients message
  ∧ (length (getRecipients message) ≤ length (entries message))%nat.
Proof.
  split.
  - rewrite (getRecipients_keepFirst (messageTo _)). unfold entries. simpl.
    rewrite omap_normalized by apply getRecipients_normalized.
    apply keepFirst_NoDup. rewrite getRecipients_keepFirst. apply NoDup_keepFirst.
  - rewrite getRecipients_keepFirst.
    etrans; [apply length_keepFirst|apply length_omap_le].
Qed.


End RecipientsMore.



(** ** More on the inbound handler *)

Section EmailMore.

Lemma normalizeTtlSeconds_positive value : (0 < normalizeTtlSeconds value)%Z.
Proof.
  unfold normalizeTtlSeconds, DEFAULT_TTL_SECONDS.
  destruct (parseInt10 _) as [|z| |]; try done.
  destruct (0 <? z)%Z eqn:E; [by apply Z.ltb_lt|done].
Qed.

Lemma email_tasks message env tasks :
  email message env = Returns tasks →
  tasks = []
  ∨ ∃ code, extractCode (subjectOf message ++ [10%N] ++ bodyText message) = Some code
            ∧ tasks = writeFor code (normalizeTtlSeconds (CODE_TTL_SECONDS env))
                        <$> getRecipients message.
Proof.
  rewrite email_unfold. intros [= <-]. destruct (extractCode _) as [code|]; [|by left].
  right. by exists code.
Qed.

(** X10.  The writes the inbound handler requests have pairwise distinct
    keys, each [code:] followed by a recipient's address; there are none or
    one per recipient; all carry the code extracted from the message, of
    five or six digits, and the effective TTL, which is positive. *)
Theorem email_writes_wellformed message env tasks :
  email message env = Returns tasks →
  NoDup (KV.key <$> tasks)
  ∧ (length tasks = 0%nat ∨ length tasks = length (getRecipients message))
  ∧ ∀ t, t ∈ tasks →
      (∃ a, a ∈ getRecipients message ∧ IsAddress a ∧ KV.key t = lit "code:" ++ a)
      ∧ Some (KV.val t) = extractCode (subjectOf message ++ [10%N] ++ bodyText message)
      ∧ allOf isDigit (KV.val t) ∧ (length (KV.val t) = 5 ∨ length (KV.val t) = 6)%nat
      ∧ KV.expirationTtl t = normalizeTtlSeconds (CODE_TTL_SECONDS env)
      ∧ (0 < KV.expirationTtl t)%Z.
Proof.
  intros [->|(code & E & ->)]%email_tasks.
  { split; [constructor|]. split; [by left|]. by intros t ?%elem_of_nil. }
  split; [|split; [right; by rewrite length_fmap|]].
  - rewrite <- list_fmap_compose.
    assert (Inj (=) (=) (KV.key ∘ writeFor code (normalizeTtlSeconds (CODE_TTL_SECONDS env))))
      by (intros a b; apply buildKey_inj).
    apply (NoDup_fmap_2 _).
    rewrite getRecipients_keepFirst. apply NoDup_keepFirst.
  - intros t (a & -> & Ha)%list_elem_of_fmap. cbn [writeFor KV.key KV.val KV.expirationTtl].
    pose proof (extractCode_Some _ _ E) as (l & r & _ & (Hd & Hlen & _) & _).
    repeat split; auto using normalizeTtlSeconds_positive.
    exists a. repeat split; [done|].
    by apply getRecipients_normalized, extractEmailAddress_address in Ha as [? _].
Qed.

Lemma email_writes_wellformed_witness :
  NoDup (KV.key <$> [writeFor (lit "73920") 120 (lit "user@test.com")]).
Proof.
  apply (email_writes_wellformed scenarioMessage scenarioEnv
           [writeFor (lit "73920") 120 (lit "user@test.com")]).
  vm_compute. reflexivity.
Defined.

Lemma perform_other ns tasks key :
  (∀ t, t ∈ tasks → KV.key t ≠ key) →
  KV.entries (KV.perform ns tasks) !! key = KV.entries ns !! key.
Proof.
  induction tasks as [|t tasks IH] using rev_ind; intros H; [done|].
  unfold KV.perform. rewrite foldl_app. simpl. fold (KV.perform ns tasks).
  rewrite lookup_insert_ne by (apply H, elem_of_app; right; by left).
  apply IH. intros t' Ht'. apply H, elem_of_app. by left.
Qed.

(** X11.  Performing the writes of the inbound handler leaves the record
    of every address that is not a recipient as it was. *)
Theorem email_touches_only_recipients message env tasks address :
  email message env = Returns tasks →
  address ∉ getRecipients message →
  KV.get (KV.perform (ANYMAIL_CODES env) tasks) (buildKey address)
  = KV.get (ANYMAIL_CODES env) (buildKey address).
Proof.
  intros Hemail Hnot. unfold KV.get. rewrite perform_clock, perform_other; [done|].
  intros t Ht Hkey. apply email_tasks in Hemail as [->|(code & _ & ->)].
  - by apply elem_of_nil in Ht.
  - apply list_elem_of_fmap in Ht as (r & -> & Hr). apply buildKey_inj in Hkey. by subst.
Qed.

Lemma email_touches_only_recipients_witness :
  KV.get (KV.perform (ANYMAIL_CODES emptyCodeEnv)
            [writeFor (lit "482913") 600 (lit "ann@x.org")])
    (buildKey (lit "user@test.com"))
  = KV.get (ANYMAIL_CODES emptyCodeEnv) (buildKey (lit "user@test.com")).
Proof.
  apply (email_touches_only_recipients
           {| to := ToOne (lit "Ann <Ann@X.org>"); headers := None;
              raw := Some (Delivers (lit "Your code is 482913, expires soon")) |}
           (withStore {| ACCESS_KEY := None; CODE_TTL_SECONDS := None; DOMAINS := None;
                         ANYMAIL_CODES := ANYMAIL_CODES emptyCodeEnv |}
              (ANYMAIL_CODES emptyCodeEnv))).
  - vm_compute. reflexivity.
  - apply (bool_decide_eq_true_1 (_ ∉ _)). vm_compute. reflexivity.
Defined.

(** X12.  Once the TTL has elapsed, the lookup of a code the inbound
    handler wrote answers 404 with an empty code. *)
Theorem stored_code_expires message env tasks request address code dt :
  email message env = Returns tasks →
  writeFor code (normalizeTtlSeconds (CODE_TTL_SECONDS env)) address ∈ tasks →
  (normalizeTtlSeconds (CODE_TTL_SECONDS env) ≤ dt)%Z →
  method request = lit "GET" → authorized request env = true →
  decodeURIComponent (routingToken request) = Returns address →
  fetch request
    (withStore env (KV.elapse dt (KV.perform (ANYMAIL_CODES env) tasks)))
  = Returns (json (CodePayload []) 404).
Proof.
  intros Hemail Hin Hdt Hm Ha Hd.
  apply email_tasks in Hemail as [->|(code' & E & ->)]; [by apply elem_of_nil in Hin|].
  apply list_elem_of_fmap in Hin as (r & Heq & Hr). injection Heq as Hkey Hcode. subst r code'.
  pose proof (getRecipients_normalized _ _ Hr) as Hnorm.
  assert (routingToken request ≠ []) as Ht.
  { intros Hnil. rewrite Hnil in Hd. injection Hd as <-. done. }
  rewrite (fetch_lookup request (withStore env _) address address Hm Ha Ht Hd Hnorm).
  cbn [withStore ANYMAIL_CODES]. unfold KV.get, KV.elapse. cbn [KV.entries KV.clock].
  rewrite (perform_lookup _ _ _ _ _ Hr), perform_clock. cbn [KV.expiration KV.value].
  by rewrite (proj2 (Z.ltb_ge _ _)) by lia.
Qed.

Lemma stored_code_expires_witness :
  fetch (getRequest "/user@test.com" (Some "Bearer s3cret"%string))
    (withStore scenarioEnv
       (KV.elapse 120
          (KV.perform (ANYMAIL_CODES scenarioEnv)
             [writeFor (lit "73920") 120 (lit "user@test.com")])))
  = Returns (json (CodePayload []) 404).
Proof.
  apply (stored_code_expires scenarioMessage scenarioEnv
           [writeFor (lit "73920") 120 (lit "user@test.com")]
           (getRequest "/user@test.com" (Some "Bearer s3cret"%string))
           (lit "user@test.com") (lit "73920") 120).
  - vm_compute. reflexivity.
  - apply list_elem_of_here.
  - vm_compute. discriminate.
  - reflexivity.
  - vm_compute. reflexivity.
  - vm_compute. reflexivity.
Defined.

End EmailMore.


(** ** More on the lookup handler *)

Section FetchMore.

Lemma fetch_not_GET request env :
  method request ≠ lit "GET" →
  fetch request env = Returns (json (ErrorPayload (lit "method not allowed")) 405).
Proof. intros H. unfold fetch. by rewrite bool_decide_eq_false_2. Qed.

(** X13.  Every response of the lookup handler has the JSON content type;
    its status is 405 exactly for a method other than GET; an error payload
    comes with 400, 401 or 405, the domain list with 200 and an empty
    routing token, a non-empty code with 200 and the empty code with 404. *)
Theorem fetch_response_shape request env response :
  fetch request env = Returns response →
  contentType response = jsonContentType
  ∧ (status response = 405%Z ↔ method request ≠ lit "GET")
  ∧ match body response with
    | ErrorPayload _ => status response ∈ [400; 401; 405]%Z
    | DomainsPayload _ => status response = 200%Z ∧ routingToken request = []
    | CodePayload code =>
        (status response = 200%Z ∧ code ≠ []) ∨ (status response = 404%Z ∧ code = [])
    end.
Proof.
  destruct (decide (method request = lit "GET")) as [Hm|Hm].
  - rewrite (fetch_unfold _ _ Hm).
    assert (∀ r, status r ≠ 405%Z → (status r = 405%Z ↔ method request ≠ lit "GET")) as H405.
    { intros r Hr. split; [done|]. by intros []. }
    destruct (authorized request env).
    2:{ intros [= <-]. split; [done|]. split; [by apply H405|].
        simpl. rewrite !elem_of_cons. auto. }
    destruct (routingToken request) as [|c t] eqn:Et.
    { intros [= <-]. split; [done|]. split; [by apply H405|]. done. }
    destruct (decodeURIComponent (c :: t)) as [decoded|e]; [|done]. cbn [mbind Outcome_bind].
    destruct (extractEmailAddress (Some decoded)) as [a|].
    + unfold lookupResponse. destruct (KV.get _ _) as [[|c' code]|]; intros [= <-];
        (split; [done|]); (split; [by apply H405|]); simpl; auto.
    + intros [= <-]. split; [done|]. split; [by apply H405|].
      simpl. rewrite !elem_of_cons. auto.
  - rewrite (fetch_not_GET _ _ Hm). intros [= <-]. split; [done|]. split; [done|].
    simpl. rewrite !elem_of_cons. auto.
Qed.

Lemma fetch_response_shape_witness :
  contentType (json (CodePayload []) 404) = jsonContentType.
Proof.
  apply (fetch_response_shape (getRequest "/user@test.com" (Some "Bearer s3cret"%string))
           scenarioEnv (json (CodePayload []) 404)).
  vm_compute. reflexivity.
Defined.

Lemma decode_throws fuel s e : decode fuel s = Throws e → e = URIError.
Proof.
  revert s. induction fuel as [|fuel IH]; intros s; [done|]. cbn [decode].
  destruct s as [|c s]; [done|].
  assert (Hbind : ∀ s' (f : jsstring → jsstring),
            (R ← decode fuel s'; Returns (f R)) = Throws e → e = URIError).
  { intros s' f. destruct (decode fuel s') eqn:E; [done|]. intros [= <-]. by eapply IH. }
  destruct (c =? 37)%N; [|apply (Hbind s (λ R, c :: R))].
  destruct s as [|h [|l s]]; try (by intros [= <-]).
  destruct (parseHexOctet h l) as [B|]; [|by intros [= <-]].
  destruct (leadingOnes B) as [|n']; [apply (Hbind s (λ R, B :: R))|].
  destruct (_ || _); [by intros [= <-]|].
  destruct (continuationOctets n' s) as [[octets s3]|]; [|by intros [= <-]].
  destruct (utf8CodePoint (B :: octets)) as [V|]; [|by intros [= <-]].
  apply (Hbind s3 (λ R, utf16Encode V ++ R)).
Qed.

Lemma fetch_Throws_inv request env e :
  fetch request env = Throws e →
  method request = lit "GET" ∧ authorized request env = true
  ∧ decodeURIComponent (routingToken request) = Throws e ∧ e = URIError.
Proof.
  - destruct (decide (method request = lit "GET")) as [Hm|Hm];
      [|by rewrite (fetch_not_GET _ _ Hm)].
    rewrite (fetch_unfold _ _ Hm). destruct (authorized request env); [|done].
    destruct (routingToken request) as [|c t] eqn:Et; [done|].
    destruct (decodeURIComponent (c :: t)) as [decoded|e'] eqn:Ed.
    + cbn [mbind Outcome_bind]. by destruct (extractEmailAddress _).
    + intros [= <-]. repeat split; auto. unfold decodeURIComponent in Ed.
      by apply decode_throws in Ed.
Qed.

(** X14.  The lookup handler throws only [URIError], and exactly when an
    authorized GET request has a routing token that [decodeURIComponent]
    rejects. *)
Theorem fetch_throws_only_on_bad_escape request env e :
  fetch request env = Throws e
  ↔ method request = lit "GET" ∧ authorized request env = true
    ∧ decodeURIComponent (routingToken request) = Throws e ∧ e = URIError.
Proof.
  split; [apply fetch_Throws_inv|].
  intros (Hm & Ha & Hd & _). by apply fetch_decode_throws.
Qed.



(** X15.  An authorized GET request whose non-empty routing token decodes
    to a text without an address is answered 400 "invalid email", whatever
    the store holds. *)
Theorem fetch_no_address_is_invalid request env decoded :
  method request = lit "GET" → authorized request env = true →
  routingToken request ≠ [] →
  decodeURIComponent (routingToken request) = Returns decoded →
  extractEmailAddress (Some decoded) = None →
  ∀ ns, fetch request (withStore env ns)
        = Returns (json (ErrorPayload (lit "invalid email")) 400).
Proof.
  intros Hm Ha Ht Hd He ns.
  apply (fetch_invalid_email request (withStore env ns) decoded); auto.
Qed.

Lemma fetch_no_address_is_invalid_witness :
  fetch (getRequest "/nobody%20here" (Some "Bearer s3cret"%string)) scenarioEnv
  = Returns (json (ErrorPayload (lit "invalid email")) 400).
Proof.
  apply (fetch_no_address_is_invalid
           (getRequest "/nobody%20here" (Some "Bearer s3cret"%string))
           scenarioEnv (lit "nobody here")
           eq_refl eq_refl ltac:(discriminate) eq_refl eq_refl (ANYMAIL_CODES scenarioEnv)).
Defined.

End FetchMore.



(** ** Paths that reach an address *)

Section Paths.

Lemma decode_plain fuel s :
  (length s ≤ fuel)%nat → 37%N ∉ s → decode fuel s = Returns s.
Proof.
  revert fuel. induction s as [|c s IH]; intros fuel Hlen Hs; [by destruct fuel|].
  destruct fuel as [|fuel]; [simpl in Hlen; lia|]. cbn [decode].
  rewrite (proj2 (N.eqb_neq c 37)) by (intros ->; apply Hs; by left).
  rewrite IH; [done|simpl in Hlen; lia|]. intros ?. apply Hs. by right.
Qed.

Lemma hex_octet c :
  isAscii c = true →
  parseHexOctet (hexChar (c / 16)) (hexChar (c mod 16)) = Some c ∧ leadingOnes c = 0%nat.
Proof.
  intros Hc. apply N.ltb_lt in Hc.
  enough (bool_decide (parseHexOctet (hexChar (c / 16)) (hexChar (c mod 16)) = Some c)
          && bool_decide (leadingOnes c = 0%nat) = true) as H.
  { apply andb_true_iff in H as [H1 H2]. split; by eapply bool_decide_eq_true_1. }
  revert c Hc. apply (below_cases _ 128). vm_compute. reflexivity.
Qed.

Lemma decode_escaped fuel s :
  (length s ≤ fuel)%nat → allOf isAscii s → decode fuel (percentEncodeAll s) = Returns s.
Proof.
  revert fuel. induction s as [|c s IH]; intros fuel Hlen Hs; [by destruct fuel|].
  destruct fuel as [|fuel]; [simpl in Hlen; lia|]. inversion Hs as [|? ? Hc Hs']; subst.
  change (percentEncodeAll (c :: s))
    with (37%N :: hexChar (c / 16) :: hexChar (c mod 16) :: percentEncodeAll s).
  cbn [decode]. rewrite N.eqb_refl. destruct (hex_octet c Hc) as [-> ->].
  rewrite IH; [done|simpl in Hlen; lia|done].
Qed.

Lemma length_percentEncodeAll s : length (percentEncodeAll s) = (3 * length s)%nat.
Proof.
  induction s as [|c s IH]; [done|].
  change (percentEncodeAll (c :: s))
    with (37%N :: hexChar (c / 16) :: hexChar (c mod 16) :: percentEncodeAll s).
  simpl. rewrite IH. lia.
Qed.

Lemma dropWhile_elem p s c : c ∈ dropWhile p s → c ∈ s.
Proof.
  intros Hc. rewrite <- (takeWhile_dropWhile p s). apply elem_of_app. by right.
Qed.

(** X17.  A request whose path holds no percent sign is always answered:
    the handler does not throw. *)
Theorem fetch_plain_path_returns request env :
  37%N ∉ pathname (url request) → ∃ response, fetch request env = Returns response.
Proof.
  intros Hp. destruct (fetch request env) as [response|e] eqn:E; [by exists response|].
  apply fetch_Throws_inv in E as (_ & _ & Hd & _).
  unfold decodeURIComponent in Hd. rewrite decode_plain in Hd; [done|done|].
  intros ?%dropWhile_elem. done.
Qed.

Lemma fetch_plain_path_returns_witness :
  ∃ response, fetch (getRequest "/nobody" None) scenarioEnv = Returns response.
Proof.
  apply (fetch_plain_path_returns (getRequest "/nobody" None) scenarioEnv).
  apply (bool_decide_eq_true_1 (_ ∉ _)). vm_compute. reflexivity.
Defined.

(** X18.  An authorized GET request reaches the record of a normalized
    address through the path that escapes every character of it, and
    through the plain path when the address holds no percent sign. *)
Theorem fetch_address_paths request env a :
  method request = lit "GET" → authorized request env = true →
  extractEmailAddress (Some a) = Some a →
  pathname (url request) = 47%N :: percentEncodeAll a
  ∨ (pathname (url request) = 47%N :: a ∧ 37%N ∉ a) →
  fetch request env = Returns (lookupResponse (KV.get (ANYMAIL_CODES env) (buildKey a))).
Proof.
  intros Hm Ha He Hpath.
  pose proof (extractEmailAddress_address _ _ He) as [Haddr _].
  pose proof (IsAddress_ascii _ Haddr) as Hascii.
  destruct Haddr as (L & D & T & Heq & HL & HLok & _).
  destruct L as [|c L]; [done|]. inversion HLok as [|? ? Hc _]; subst.
  assert (isSlash c = false) as Hslash.
  { unfold isSlash. destruct (N.eqb_spec c 47) as [->|]; [done|done]. }
  destruct Hpath as [Hp|[Hp Hnp]].
  - assert (routingToken request = percentEncodeAll ((c :: L) ++ [64%N] ++ D ++ [46%N] ++ T))
      as Ht by (unfold routingToken; by rewrite Hp).
    apply (fetch_lookup _ _ ((c :: L) ++ [64%N] ++ D ++ [46%N] ++ T)); auto.
    + by rewrite Ht.
    + rewrite Ht. unfold decodeURIComponent. apply decode_escaped; [|done].
      rewrite length_percentEncodeAll. lia.
  - assert (routingToken request = (c :: L) ++ [64%N] ++ D ++ [46%N] ++ T) as Ht.
    { unfold routingToken. rewrite Hp. simpl. by rewrite Hslash. }
    apply (fetch_lookup _ _ ((c :: L) ++ [64%N] ++ D ++ [46%N] ++ T)); auto.
    + by rewrite Ht.
    + rewrite Ht. unfold decodeURIComponent. by apply decode_plain.
Qed.

Lemma fetch_address_paths_witness :
  fetch (getRequest "/%75%73%65%72%40%74%65%73%74%2E%63%6F%6D"
           (Some "Bearer s3cret"%string)) emptyCodeEnv
  = Returns (lookupResponse (KV.get (ANYMAIL_CODES emptyCodeEnv)
                               (buildKey (lit "user@test.com")))).
Proof.
  apply (fetch_address_paths
           (getRequest "/%75%73%65%72%40%74%65%73%74%2E%63%6F%6D"
              (Some "Bearer s3cret"%string))
           emptyCodeEnv (lit "user@test.com") eq_refl eq_refl eq_refl).
  left. reflexivity.
Defined.

End Paths.


(** ** Worked examples *)

Example extractEmailAddress_John :
  extractEmailAddress (Some (lit "John@Example.COM")) = Some (lit "john@example.com").
Proof. vm_compute. reflexivity. Qed.

Example extractCode_482913 :
  extractCode (lit "Your code is 482913, expires soon") = Some (lit "482913").
Proof. vm_compute. reflexivity. Qed.

Example extractCode_12345678 :
  extractCode (lit "order #12345678 confirmed") = None.
Proof. vm_compute. reflexivity. Qed.

Example getRecipients_dedup :
  getRecipients (messageTo (ToMany [Some (lit "a@x.com"); Some (lit "A@X.COM");
                                    None; Some (lit "b@y.com"); Some []]))
  = [lit "a@x.com"; lit "b@y.com"]
  ∧ getRecipients (messageTo ToAbsent) = []
  ∧ getRecipients (messageTo (ToOne (lit "Ann <Ann@X.org>"))) = [lit "ann@x.org"].
Proof. vm_compute. repeat split; reflexivity. Qed.

Example decodeURIComponent_at :
  decodeURIComponent (lit "x%40y.com") = Returns (lit "x@y.com").
Proof. vm_compute. reflexivity. Qed.

Example decodeURIComponent_eacute :
  decodeURIComponent (lit "%C3%A9%F0%9F%98%80") = Returns [233; 55357; 56832]%N.
Proof. vm_compute. reflexivity. Qed.

Example decodeURIComponent_lone_percent : decodeURIComponent (lit "%") = Throws URIError.
Proof. reflexivity. Qed.

Example parseInt10_examples :
  parseInt10 (lit "  120abc") = Finite 120 ∧ parseInt10 (lit "-7") = Finite (-7)
  ∧ parseInt10 (lit "abc") = NaN ∧ parseInt10 [] = NaN
  ∧ parseInt10 (lit "9007199254740993") = Finite 9007199254740992.
Proof. vm_compute. repeat split; reflexivity. Qed.

Example scenario_email :
  email scenarioMessage scenarioEnv
  = Returns [{| KV.key := lit "code:user@test.com"; KV.val := lit "73920";
                KV.expirationTtl := 120 |}].
Proof. vm_compute. reflexivity. Qed.

Example scenario_fetch :
  let ns := KV.perform (ANYMAIL_CODES scenarioEnv)
              [{| KV.key := lit "code:user@test.com"; KV.val := lit "73920";
                  KV.expirationTtl := 120 |}] in
  fetch (getRequest "/user@test.com" (Some "Bearer s3cret"%string)) (withStore scenarioEnv ns)
  = Returns (json (CodePayload (lit "73920")) 200)
  ∧ fetch (getRequest "/user@test.com" None) (withStore scenarioEnv ns)
    = Returns (json (ErrorPayload (lit "unauthorized")) 401)
  ∧ fetch (getRequest "//" (Some "bEARER   s3cret  "%string)) (withStore scenarioEnv ns)
    = Returns (json (DomainsPayload [lit "test.com"; lit "example.org"]) 200)
  ∧ fetch (getRequest "/user%40test.com" (Some "Bearer s3cret"%string))
      (withStore scenarioEnv (KV.elapse 120 ns))
    = Returns (json (CodePayload []) 404).
Proof. vm_compute. repeat split; reflexivity. Qed.

(** Runs of four, five, six and seven digits. *)
Example extractCode_run_lengths :
  extractCode (lit "pin 1234.") = None
  ∧ extractCode (lit "pin 12345.") = Some (lit "12345")
  ∧ extractCode (lit "pin 123456.") = Some (lit "123456")
  ∧ extractCode (lit "pin 1234567.") = None
  ∧ extractCode (lit "id_12345 then 067890") = Some (lit "067890").
Proof. vm_compute. repeat split; reflexivity. Qed.

Example IsCodeToken_482913 : IsCodeToken (lit "code ") (lit "482913") (lit ", soon").
Proof. repeat split; [repeat constructor | by right]. Qed.

Example IsAddress_john : IsAddress (lit "john@example.com").
Proof.
  exists (lit "john"), (lit "example"), (lit "com").
  repeat split; try done; repeat constructor.
Qed.

Example IntegerPrefix_120 : IntegerPrefix (lit " +120s") 120.
Proof.
  exists (lit " "), (lit "+"), (lit "120"), (lit "s").
  repeat split; try done; [repeat constructor | by right; left | repeat constructor].
Qed.

Example normalizeTtlSeconds_examples :
  normalizeTtlSeconds (Some (lit "120")) = 120%Z
  ∧ normalizeTtlSeconds (Some (lit " 42 ")) = 42%Z
  ∧ normalizeTtlSeconds (Some (lit "12.5")) = 12%Z
  ∧ normalizeTtlSeconds (Some (lit "0")) = 600%Z
  ∧ normalizeTtlSeconds (Some (lit "-5")) = 600%Z
  ∧ normalizeTtlSeconds (Some (lit "soon")) = 600%Z
  ∧ normalizeTtlSeconds (Some []) = 600%Z
  ∧ normalizeTtlSeconds None = 600%Z.
Proof. vm_compute. repeat split; reflexivity. Qed.

Example fetch_other_statuses :
  fetch {| method := lit "POST"; url := {| pathname := lit "/" |}; requestHeaders := ∅ |}
    scenarioEnv
  = Returns (json (ErrorPayload (lit "method not allowed")) 405)
  ∧ fetch (getRequest "/nobody" (Some "Bearer s3cret"%string)) scenarioEnv
    = Returns (json (ErrorPayload (lit "invalid email")) 400)
  ∧ fetch (getRequest "/%ff" (Some "Bearer s3cret"%string)) scenarioEnv = Throws URIError.
Proof. vm_compute. repeat split; reflexivity. Qed.

(** An unescaped percent sign in the path is read as an escape. *)
Example fetch_percent_in_address :
  extractEmailAddress (Some (lit "a%b@x.org")) = Some (lit "a%b@x.org")
  ∧ fetch (getRequest "/a%b@x.org" (Some "Bearer s3cret"%string)) scenarioEnv
    = Throws URIError
  ∧ fetch (getRequest "/a%25b@x.org" (Some "Bearer s3cret"%string)) scenarioEnv
    = Returns (json (CodePayload []) 404).
Proof. vm_compute. repeat split; reflexivity. Qed.

Example parseDomains_examples :
  parseDomains (Some (lit " A.com ,, b.ORG,")) = [lit "a.com"; lit "b.org"]
  ∧ parseDomains (Some (lit " , ")) = []
  ∧ parseDomains None = [].
Proof. vm_compute. repeat split; reflexivity. Qed.

Example getAccessKey_examples :
  getAccessKey (getRequest "/" (Some "BEARER  a b  "%string)) = lit "a b"
  ∧ getAccessKey (getRequest "/" (Some "Bearer"%string)) = []
  ∧ getAccessKey (getRequest "/" (Some "Basic abc"%string)) = []
  ∧ getAccessKey (getRequest "/" None) = [].
Proof. vm_compute. repeat split; reflexivity. Qed.
